(** * The model code generator [gaphor/codegen/coder.py]

    A shallow embedding of the generator: the object graph the loader
    hands over (classes, properties, operations, generalizations, slots of
    applied stereotypes), the helper predicates, the class orderer, the
    three line generators and [coder] itself, followed by the properties
    of the generator that are established on this embedding.

    Conventions.
    - An object reference to a class is a [ClassId]: the position of the
      class in the element factory, which is also the order in which
      [element_factory.select] yields the classes.
    - Python's [None] is [None]; an attribute that may be [None] has an
      option type.  An f-string renders [None] as the text "None".
    - An exception is a [Raise]; exceeding the interpreter's recursion
      limit is [Raise RecursionError], and every recursive helper takes
      the depth it may still use as its first argument ([fuel]).
    - Text is a [string] of bytes: the UTF-8 encoding of the Python text.
      Equality, order, concatenation, [endswith] and [split] are then those
      of the bytes.  [strip] removes the white space of [str.strip()] in
      that encoding; [title] follows Python on ASCII text. *)

From Stdlib Require Import Ascii String.
From stdpp Require Import base option list sets gmap strings relations sorting.

Open Scope string_scope.
Open Scope list_scope.

(** ** Exceptions and results *)

Inductive exn : Type :=
| ValueError (msg : string)
| TypeError
| AttributeError
| IndexError
| RecursionError.

Inductive result (A : Type) : Type :=
| Ok (a : A)
| Raise (e : exn).
Arguments Ok {A} a.
Arguments Raise {A} e.

Definition rbind {A B} (r : result A) (k : A → result B) : result B :=
  match r with
  | Ok a => k a
  | Raise e => Raise e
  end.

(** ** The object graph *)

Definition ClassId := nat.

(** A slot of an applied stereotype: [slot.definingFeature.name] and
    [slot.value]. *)
Record Slot := mkSlot {
  definingFeature : option string;
  value : option string
}.

(** What [opposite] reads of [a.opposite]: its name and whether its
    [class_] is set. *)
Record Opposite := mkOpposite {
  opp_name : option string;
  opp_class_ : bool
}.

Record Property := mkProperty {
  pname : option string;
  type : option ClassId;
  typeValue : option string;
  isDerived : bool;
  association : bool;            (* truth value of [a.association] *)
  upper : option string;
  lowerValue : option string;
  upperValue : option string;
  aggregation : string;
  opposite : option Opposite;
  defaultValue : option string;
  slot : list Slot               (* [a.appliedStereotype[:].slot] *)
}.

Record Operation := mkOperation {
  oname : option string
}.

(** A package: its name and whether it is a [UML.Profile]. *)
Record Package := mkPackage {
  pkg_name : option string;
  is_profile : bool
}.

(** Modelled from the spec: [UML.model.get_applied_stereotypes] is not
    part of the sources at hand.  It returns the stereotypes applied to an
    element (the "designated extension annotation" of a simple-attribute
    class is one of them); [appliedStereotypes] holds their names, which
    is all [is_simple_type] reads of them.  Called on [None] it fails on
    the attribute access, an [AttributeError]. *)
Record Class := mkClass {
  name : option string;
  ownedAttribute : list Property;
  ownedOperation : list Operation;
  generalization : list ClassId;       (* [g.general] for each edge *)
  appliedStereotypes : list (option string);
  owningPackage : list Package
    (* the chain [c.owningPackage], [c.owningPackage.owningPackage], ...
       up to the root; empty when [c.owningPackage] is [None] *)
}.

(** The element factory after [storage.load]: the classes in selection
    order, and the properties that no class owns. *)
Record Model := mkModel {
  classes : list Class;
  looseProperties : list Property
}.

Definition empty_class : Class := mkClass None [] [] [] [] [].

(** Dereferencing a class reference.  References of a loaded graph never
    dangle; a reference past the end reads as a class without content. *)
Definition deref (m : Model) (c : ClassId) : Class :=
  nth c (classes m) empty_class.

(** ** [bases] *)

Definition bases (m : Model) (c : ClassId) : list ClassId :=
  generalization (deref m c).

(** ** [order_classes] *)

(** The state of the orderer: the classes yielded so far and
    [seen_classes]. *)
Definition ostate : Type := (list ClassId * gset ClassId)%type.

(** A [for] loop over class references that threads the orderer's state
    and stops at the first exception. *)
Fixpoint visit_all (visit : ClassId → ostate → result ostate)
    (cs : list ClassId) (st : ostate) : result ostate :=
  match cs with
  | [] => Ok st
  | c :: cs' => rbind (visit c st) (visit_all visit cs')
  end.

Fixpoint order (fuel : nat) (m : Model) (c : ClassId) (st : ostate)
    : result ostate :=
  match fuel with
  | 0 => Raise RecursionError
  | S fuel' =>
      if decide (c ∈ st.2) then Ok st
      else
        rbind (visit_all (order fuel' m) (bases m c) st)
              (λ st', Ok (st'.1 ++ [c], {[c]} ∪ st'.2))
  end.

(** An iterable handed to [order_classes]: the items it produces and the
    exception that ends it, if one does (the generator expression of
    [coder] evaluates its filter lazily). *)
Definition iterable (A : Type) : Type := (list A * option exn)%type.

(** [list(order_classes(classes))]. *)
Definition order_classes (fuel : nat) (m : Model)
    (cs : iterable ClassId) : result (list ClassId) :=
  rbind (visit_all (order fuel m) cs.1 ([], ∅))
        (λ st, match cs.2 with
               | None => Ok st.1
               | Some e => Raise e
               end).

(** ** Text helpers *)

Definition dq : string := String "034"%char "".
Definition nl : string := String "010"%char "".

(** How an f-string renders a value that may be [None]. *)
Definition fmt (s : option string) : string := default "None" s.

(** Truth value of a text that may be [None]. *)
Definition truthy (s : option string) : bool :=
  match s with
  | Some (String _ _) => true
  | _ => false
  end.

(** [s.endswith(suffix)]. *)
Definition endswith (s suffix : string) : bool :=
  let n := String.length s in
  let k := String.length suffix in
  (k <=? n)%nat && String.eqb (substring (n - k) k s) suffix.

Definition is_lower (ch : ascii) : bool :=
  ((97 <=? nat_of_ascii ch) && (nat_of_ascii ch <=? 122))%nat.
Definition is_upper (ch : ascii) : bool :=
  ((65 <=? nat_of_ascii ch) && (nat_of_ascii ch <=? 90))%nat.
Definition to_upper (ch : ascii) : ascii :=
  if is_lower ch then ascii_of_nat (nat_of_ascii ch - 32) else ch.
Definition to_lower (ch : ascii) : ascii :=
  if is_upper ch then ascii_of_nat (nat_of_ascii ch + 32) else ch.

(** [str.title()] on ASCII text: a letter that follows a letter is
    lowered, any other letter is raised, the rest is kept. *)
Fixpoint title_from (previous_is_cased : bool) (s : string) : string :=
  match s with
  | "" => ""
  | String ch s' =>
      if is_lower ch then
        String (if previous_is_cased then ch else to_upper ch)
               (title_from true s')
      else if is_upper ch then
        String (if previous_is_cased then to_lower ch else ch)
               (title_from true s')
      else String ch (title_from false s')
  end.
Definition title (s : string) : string := title_from false s.

(** White space as [str.strip()] sees it.  The characters of one byte:
    U+0009 to U+000D and U+001C to U+0020. *)
Definition is_space (ch : ascii) : bool :=
  let n := nat_of_ascii ch in
  (((9 <=? n) && (n <=? 13)) || ((28 <=? n) && (n <=? 32)))%nat.

(** Those of two bytes: U+0085 and U+00A0. *)
Definition is_space2 (c1 c2 : ascii) : bool :=
  let n2 := nat_of_ascii c2 in
  ((nat_of_ascii c1 =? 194) && ((n2 =? 133) || (n2 =? 160)))%nat.

(** Those of three bytes: U+1680, U+2000 to U+200A, U+2028, U+2029,
    U+202F, U+205F and U+3000. *)
Definition is_space3 (c1 c2 c3 : ascii) : bool :=
  let n1 := nat_of_ascii c1 in
  let n2 := nat_of_ascii c2 in
  let n3 := nat_of_ascii c3 in
  (((n1 =? 225) && (n2 =? 154) && (n3 =? 128))
   || ((n1 =? 226) && (n2 =? 128)
       && (((128 <=? n3) && (n3 <=? 138))
           || (n3 =? 168) || (n3 =? 169) || (n3 =? 175)))
   || ((n1 =? 226) && (n2 =? 129) && (n3 =? 159))
   || ((n1 =? 227) && (n2 =? 128) && (n3 =? 128)))%nat.

Fixpoint lstrip (s : string) : string :=
  match s with
  | "" => ""
  | String c1 s1 =>
      if is_space c1 then lstrip s1
      else
        match s1 with
        | "" => s
        | String c2 s2 =>
            if is_space2 c1 c2 then lstrip s2
            else
              match s2 with
              | "" => s
              | String c3 s3 => if is_space3 c1 c2 c3 then lstrip s3 else s
              end
        end
  end.

(** A text is kept up to its last character that is not white space:
    a byte is dropped when all that starts at it is white space. *)
Fixpoint rstrip (s : string) : string :=
  match s with
  | "" => ""
  | String ch s' =>
      if String.eqb (lstrip s) "" then "" else String ch (rstrip s')
  end.
Definition strip (s : string) : string := rstrip (lstrip s).

(** [s.split(",")]. *)
Fixpoint split_comma (s : string) : list string :=
  match s with
  | "" => [""]
  | String ch s' =>
      if Ascii.eqb ch ","%char then "" :: split_comma s'
      else match split_comma s' with
           | [] => [String ch ""]
           | h :: t => String ch h :: t
           end
  end.

(** [sorted(xs, key=...)]: a stable sort on a text key. *)
Section sorted.
Context {A : Type} (key : A → string).

Fixpoint insert_sorted (x : A) (l : list A) : list A :=
  match l with
  | [] => [x]
  | y :: l' =>
      if String.leb (key x) (key y) then x :: l
      else y :: insert_sorted x l'
  end.

Definition sorted (l : list A) : list A := foldr insert_sorted [] l.
End sorted.

(** ** Loops over results *)

(** [any(f(x) for x in l)], and equally a loop that returns [True] at the
    first hit and [False] at its end. *)
Fixpoint any_r {A} (f : A → result bool) (l : list A) : result bool :=
  match l with
  | [] => Ok false
  | x :: l' =>
      match f x with
      | Ok true => Ok true
      | Ok false => any_r f l'
      | Raise e => Raise e
      end
  end.

(** A loop that returns the first result that is not [None]. *)
Fixpoint first_r {A B} (f : A → result (option B)) (l : list A)
    : result (option B) :=
  match l with
  | [] => Ok None
  | x :: l' =>
      match f x with
      | Ok (Some b) => Ok (Some b)
      | Ok None => first_r f l'
      | Raise e => Raise e
      end
  end.

(** ** The predicates on classes and properties *)

(** Truth value of [is_enumeration(c)]. *)
Definition is_enumeration (m : Model) (c : option ClassId) : bool :=
  match c with
  | None => false
  | Some c =>
      match name (deref m c) with
      | Some n => truthy (Some n) && (endswith n "Kind" || endswith n "Sort")
      | None => false
      end
  end.

(** [is_simple_type(c)]; the argument is [a.type] at three of its four
    call sites and may be [None] there. *)
Fixpoint is_simple_type (fuel : nat) (m : Model) (c : option ClassId)
    : result bool :=
  match c with
  | None => Raise AttributeError
  | Some c =>
      match fuel with
      | 0 => Raise RecursionError
      | S fuel' =>
          if existsb (λ s, bool_decide (s = Some "SimpleAttribute"))
                     (appliedStereotypes (deref m c))
          then Ok true
          else any_r (λ g, is_simple_type fuel' m (Some g))
                     (generalization (deref m c))
      end
  end.

(** The inner [test] of [is_reassignment]. *)
Fixpoint reassignment_test (fuel : nat) (m : Model)
    (aname : option string) (c : ClassId) : result bool :=
  match fuel with
  | 0 => Raise RecursionError
  | S fuel' =>
      if existsb (λ attr, bool_decide (pname attr = aname))
                 (ownedAttribute (deref m c))
      then Ok true
      else any_r (reassignment_test fuel' m aname) (bases m c)
  end.

(** [is_reassignment(a)], where [owner] is [a.owner]. *)
Definition is_reassignment (fuel : nat) (m : Model) (owner : ClassId)
    (a : Property) : result bool :=
  any_r (reassignment_test fuel m (pname a)) (bases m owner).

(** [is_in_profile(c)] on the chain of owning packages of [c]. *)
Fixpoint in_profile_test (chain : list Package) : result bool :=
  match chain with
  | [] => Raise AttributeError
  | p :: rest =>
      if is_profile p then Ok true
      else match rest with
           | [] => Ok false
           | _ => in_profile_test rest
           end
  end.
Definition is_in_profile (m : Model) (c : ClassId) : result bool :=
  in_profile_test (owningPackage (deref m c)).

(** [redefines(a)]: the value of the first slot named "redefines". *)
Definition redefines (a : Property) : option string :=
  match List.find (λ s, bool_decide (definingFeature s = Some "redefines"))
                  (slot a) with
  | Some s => value s
  | None => None
  end.

(** [attribute(c, name)]; the property comes with the class that owns
    it, which is what [d.owner] reads. *)
Fixpoint attribute (fuel : nat) (m : Model) (c : ClassId) (nm : string)
    : result (option (ClassId * Property)) :=
  match fuel with
  | 0 => Raise RecursionError
  | S fuel' =>
      match List.find (λ a, bool_decide (pname a = Some nm))
                      (ownedAttribute (deref m c)) with
      | Some a => Ok (Some (c, a))
      | None => first_r (λ base, attribute fuel' m base nm) (bases m c)
      end
  end.

(** [lower(a)], [upper(a)], [composite(a)] and [opposite(a)]: the optional
    clauses of a statement.  The names [upper] and [opposite] are taken by
    the fields the functions read, hence [upper_clause] and
    [opposite_clause]. *)
Definition lower (a : Property) : string :=
  match lowerValue a with
  | None => ""
  | Some v => if String.eqb v "0" then "" else ", lower=" +:+ v
  end.

Definition upper_clause (a : Property) : string :=
  match upperValue a with
  | None => ""
  | Some v => if String.eqb v "*" then "" else ", upper=" +:+ v
  end.

Definition composite (a : Property) : string :=
  if String.eqb (aggregation a) "composite" then ", composite=True" else "".

Definition opposite_clause (a : Property) : string :=
  match opposite a with
  | Some o =>
      if truthy (opp_name o) && opp_class_ o
      then ", opposite=" +:+ dq +:+ fmt (opp_name o) +:+ dq
      else ""
  | None => ""
  end.

(** [default_value(a)], where [owner_name] is [a.owner.name]. *)
Definition default_value (owner_name : option string) (a : Property)
    : result string :=
  if truthy (defaultValue a) then
    let d := fmt (defaultValue a) in
    if bool_decide (typeValue a = Some "int") then
      Ok (", default=" +:+ title d)
    else if bool_decide (typeValue a = Some "str") then
      Ok (", default=" +:+ dq +:+ d +:+ dq)
    else
      Raise (ValueError ("Unknown default value type: " +:+ fmt owner_name
                         +:+ "." +:+ fmt (pname a) +:+ ": "
                         +:+ fmt (typeValue a) +:+ " = " +:+ d))
  else Ok "".

(** ** The override table *)

(** Modelled from the spec: the class [Overrides] of
    [gaphor.codegen.override] is not part of the sources at hand.  It is a
    lookup table keyed by qualified name ([ClassName] or
    [ClassName.memberName]) with exact-string lookup: [has_override] tells
    whether a key has an entry and [get_override] returns the entry's
    literal text.  [get_type], which [variables] calls, returns the type
    annotation of the entry.  A key that is [None] has no entry. *)
Record Overrides := mkOverrides {
  has_override : string → bool;
  get_override : string → string;
  get_type : string → string
}.

(** [overrides and overrides.has_override(key)]: the table, when the
    test holds. *)
Definition override_for (overrides : option Overrides) (key : string)
    : option Overrides :=
  match overrides with
  | Some o => if has_override o key then Some o else None
  | None => None
  end.

Definition class_override_for (overrides : option Overrides)
    (key : option string) : option Overrides :=
  match key with
  | Some k => override_for overrides k
  | None => None
  end.

(** ** Generators: lines, warnings, exceptions *)

(** What a run leaves behind, in order: a line ([yield] in a generator,
    [print] in [coder]) or a warning sent to the log. *)
Inductive event : Type :=
| Line (s : string)
| Warn (s : string).

(** A computation: the events it produced, then its value or the
    exception that stopped it. *)
Definition M (A : Type) : Type := (list event * result A)%type.

Definition ret {A} (a : A) : M A := ([], Ok a).

Definition bind {A B} (x : M A) (k : A → M B) : M B :=
  match x.2 with
  | Ok a => (x.1 ++ (k a).1, (k a).2)
  | Raise e => (x.1, Raise e)
  end.

Notation "x <- c ;; k" := (bind c (λ x, k))
  (at level 100, c at next level, right associativity).
Notation "c ;;; k" := (bind c (λ _, k))
  (at level 100, right associativity).

Definition emit (s : string) : M unit := ([Line s], Ok tt).
Definition warning (s : string) : M unit := ([Warn s], Ok tt).
Definition lift {A} (r : result A) : M A := ([], r).

Fixpoint for_each {A} (l : list A) (body : A → M unit) : M unit :=
  match l with
  | [] => ret tt
  | x :: l' => body x ;;; for_each l' body
  end.

(** A loop that carries a local variable. *)
Fixpoint for_each_with {A S} (l : list A) (s : S) (body : S → A → M S)
    : M S :=
  match l with
  | [] => ret s
  | x :: l' => s' <- body s x ;; for_each_with l' s' body
  end.

Definition lines_of (t : list event) : list string :=
  omap (λ e, match e with Line s => Some s | Warn _ => None end) t.
Definition warnings_of (t : list event) : list event :=
  List.filter (λ e, match e with Warn _ => true | Line _ => false end) t.

(** [list(g)] for a generator [g]: the warnings are logged while the list
    is built and the lines are its items; an exception loses the items. *)
Definition collect (g : M unit) : M (list string) :=
  (warnings_of g.1,
   match g.2 with
   | Ok _ => Ok (lines_of g.1)
   | Raise e => Raise e
   end).

(** ** [class_declaration] *)

(** Sorting or joining base names of which one is [None] is a
    [TypeError]. *)
Definition class_declaration (m : Model) (c : ClassId) : result string :=
  let bs := sorted (λ b, fmt (name (deref m b))) (bases m c) in
  if forallb (λ b, bool_decide (is_Some (name (deref m b)))) bs then
    Ok ("class " +:+ fmt (name (deref m c)) +:+ "("
        +:+ String.concat ", " (map (λ b, fmt (name (deref m b))) bs)
        +:+ "):")
  else Raise TypeError.

(** ** [variables] *)

(** The qualified name [f"{c.name}.{member.name}"]. *)
Definition full_name_of (m : Model) (c : ClassId) (member : option string)
    : string :=
  fmt (name (deref m c)) +:+ "." +:+ fmt member.

(** [a.type.name] in an f-string. *)
Definition type_name (m : Model) (t : option ClassId) : result string :=
  match t with
  | Some t => Ok (fmt (name (deref m t)))
  | None => Raise AttributeError
  end.

(** The body of the loop over the owned attributes. *)
Definition variable_of (fuel : nat) (m : Model)
    (overrides : option Overrides) (c : ClassId) (a : Property) : M unit :=
  let full_name := full_name_of m c (pname a) in
  let aname := fmt (pname a) in
  match override_for overrides full_name with
  | Some o => emit (aname +:+ ": " +:+ get_type o full_name)
  | None =>
      if isDerived a && negb (association a) then
        warning ("Derived attribute " +:+ full_name
                 +:+ " has no implementation.")
      else if association a then
        simple <- lift (is_simple_type fuel m (type a)) ;;
        if (simple : bool) then
          emit (aname +:+ ": _attribute[str] = _attribute(" +:+ dq
                +:+ aname +:+ dq +:+ ", str)")
        else
          let mult := if bool_decide (upper a = Some "1") then "one"
                      else "many" in
          re <- lift (is_reassignment fuel m c a) ;;
          let comment := if (re : bool) then "  # type: ignore[assignment]"
                         else "" in
          tn <- lift (type_name m (type a)) ;;
          emit (aname +:+ ": relation_" +:+ mult +:+ "[" +:+ tn +:+ "]"
                +:+ comment)
      else if is_enumeration m (type a) then
        let literals :=
          match type a with
          | Some t => ownedAttribute (deref m t)
          | None => []
          end in
        let enum_values :=
          String.concat ", "
            (map (λ e, dq +:+ fmt (pname e) +:+ dq) literals) in
        match literals with
        | [] => lift (Raise IndexError)
        | e0 :: _ =>
            emit (aname +:+ " = _enumeration(" +:+ dq +:+ aname +:+ dq
                  +:+ ", (" +:+ enum_values +:+ "), " +:+ dq
                  +:+ fmt (pname e0) +:+ dq +:+ ")")
        end
      else
        dv <- lift (default_value (name (deref m c)) a) ;;
        emit (aname +:+ ": _attribute[" +:+ fmt (typeValue a)
              +:+ "] = _attribute(" +:+ dq +:+ aname +:+ dq +:+ ", "
              +:+ fmt (typeValue a) +:+ dv +:+ ")")
  end.

(** The body of the loop over the owned operations. *)
Definition variable_of_operation (m : Model)
    (overrides : option Overrides) (c : ClassId) (o : Operation) : M unit :=
  let full_name := full_name_of m c (oname o) in
  match override_for overrides full_name with
  | Some ov => emit (fmt (oname o) +:+ ": " +:+ get_type ov full_name)
  | None => warning ("Operation " +:+ full_name +:+ " has no implementation")
  end.

Definition variables (fuel : nat) (m : Model)
    (overrides : option Overrides) (c : ClassId) : M unit :=
  for_each (sorted (λ a, default "" (pname a)) (ownedAttribute (deref m c)))
           (variable_of fuel m overrides c) ;;;
  for_each (sorted (λ o, default "" (oname o)) (ownedOperation (deref m c)))
           (variable_of_operation m overrides c).

(** ** [associations] *)

(** The body of the first loop; [redefinitions] is the buffer. *)
Definition association_of (fuel : nat) (m : Model)
    (overrides : option Overrides) (c : ClassId)
    (redefinitions : list string) (a : Property) : M (list string) :=
  let full_name := full_name_of m c (pname a) in
  let aname := fmt (pname a) in
  match override_for overrides full_name with
  | Some o => emit (get_override o full_name) ;;; ret redefinitions
  | None =>
      if negb (association a) then ret redefinitions
      else
        simple <- lift (is_simple_type fuel m (type a)) ;;
        if (simple : bool) then ret redefinitions
        else
          (* [a.type.name], read by each of the three statements *)
          tn <- lift (type_name m (type a)) ;;
          if truthy (redefines a) then
            ret (redefinitions ++
                 [full_name +:+ " = redefine(" +:+ fmt (name (deref m c))
                  +:+ ", " +:+ dq +:+ aname +:+ dq +:+ ", " +:+ tn +:+ ", "
                  +:+ fmt (redefines a) +:+ ")"])
          else if isDerived a then
            emit (full_name +:+ " = derivedunion(" +:+ dq +:+ aname +:+ dq
                  +:+ ", " +:+ tn +:+ lower a +:+ upper_clause a +:+ ")") ;;;
            ret redefinitions
          else
            emit (full_name +:+ " = association(" +:+ dq +:+ aname +:+ dq
                  +:+ ", " +:+ tn +:+ lower a +:+ upper_clause a
                  +:+ composite a +:+ opposite_clause a +:+ ")") ;;;
            ret redefinitions
  end.

(** The body of the innermost loop of the second pass: one target name
    of a "subsets" slot. *)
Definition subset_of (fuel : nat) (m : Model) (c : ClassId)
    (full_name : string) (v : string) : M unit :=
  d <- lift (attribute fuel m c (strip v)) ;;
  match d with
  | Some (owner, d) =>
      if isDerived d then
        emit (fmt (name (deref m owner)) +:+ "." +:+ fmt (pname d)
              +:+ ".add(" +:+ full_name +:+ ")")
      else
        warning (full_name +:+ " wants to subset " +:+ strip v
                 +:+ ", but it is not a derived union")
  | None =>
      warning (full_name +:+ " wants to subset " +:+ strip v
               +:+ ", but it is not defined")
  end.

(** The body of the loop over the slots of one attribute. *)
Definition subsets_of_slot (fuel : nat) (m : Model) (c : ClassId)
    (a : Property) (s : Slot) : M unit :=
  if bool_decide (definingFeature s = Some "subsets") then
    simple <- lift (is_simple_type fuel m (type a)) ;;
    if (simple : bool) then ret tt
    else
      match value s with
      | Some v =>
          for_each (split_comma v)
                   (subset_of fuel m c (full_name_of m c (pname a)))
      | None => lift (Raise AttributeError)
      end
  else ret tt.

Definition associations (fuel : nat) (m : Model)
    (overrides : option Overrides) (c : ClassId) : M unit :=
  redefinitions <- for_each_with (ownedAttribute (deref m c)) []
                     (association_of fuel m overrides c) ;;
  for_each redefinitions emit ;;;
  for_each (ownedAttribute (deref m c))
           (λ a, for_each (slot a) (subsets_of_slot fuel m c a)).

(** ** [operations] *)

Definition operation_of (m : Model) (overrides : option Overrides)
    (c : ClassId) (o : Operation) : M unit :=
  let full_name := full_name_of m c (oname o) in
  match override_for overrides full_name with
  | Some ov => emit (get_override ov full_name)
  | None => ret tt
  end.

Definition operations (m : Model) (overrides : option Overrides)
    (c : ClassId) : M unit :=
  for_each (sorted (λ o, default "" (oname o)) (ownedOperation (deref m c)))
           (operation_of m overrides c).

(** ** [last_minute_updates] *)

Definition set_typeValue (tv : option string) (p : Property) : Property :=
  mkProperty (pname p) (type p) tv (isDerived p) (association p) (upper p)
             (lowerValue p) (upperValue p) (aggregation p) (opposite p)
             (defaultValue p) (slot p).

Definition set_type (t : option ClassId) (p : Property) : Property :=
  mkProperty (pname p) t (typeValue p) (isDerived p) (association p)
             (upper p) (lowerValue p) (upperValue p) (aggregation p)
             (opposite p) (defaultValue p) (slot p).

Definition set_ownedAttribute (attrs : list Property) (c : Class) : Class :=
  mkClass (name c) attrs (ownedOperation c) (generalization c)
          (appliedStereotypes c) (owningPackage c).

(** [next(element_factory.select(lambda e: isinstance(e, UML.Class) and
    e.name == n), None)]. *)
Definition class_named (m : Model) (n : option string) : option ClassId :=
  fst <$> list_find (λ c, name c = n) (classes m).

(** The body of the loop: what the pass does to one property.  The pass
    writes [typeValue] and [type] of properties only, and reads of the
    rest of the model the class names only. *)
Definition link_property (m : Model) (prop : Property) : Property :=
  if bool_decide (typeValue prop = Some "String") then
    set_typeValue (Some "str") prop
  else if bool_decide (typeValue prop = Some "Integer")
          || bool_decide (typeValue prop = Some "Boolean") then
    set_typeValue (Some "int") prop
  else
    match class_named m (typeValue prop) with
    | Some c => set_typeValue None (set_type (Some c) prop)
    | None => prop
    end.

Definition last_minute_updates (m : Model) : Model :=
  mkModel
    (map (λ c, set_ownedAttribute (map (link_property m) (ownedAttribute c)) c)
         (classes m))
    (map (link_property m) (looseProperties m)).

(** [load_model], given what [storage.load] put into the factory. *)
Definition load_model (stored : Model) : Model := last_minute_updates stored.

(** ** [coder] *)

Definition header : string :=
  String.concat nl
    [ "# This file is generated by coder.py. DO NOT EDIT!";
      "# isort: skip_file";
      "# flake8: noqa F401,F811";
      "# fmt: off";
      "";
      "from __future__ import annotations";
      "";
      "from typing import Callable";
      "";
      "from gaphor.core.modeling.properties import (";
      "    association,";
      "    attribute as _attribute,";
      "    derived,";
      "    derivedunion,";
      "    enumeration as _enumeration,";
      "    redefine,";
      "    relation_many,";
      "    relation_one,";
      ")";
      "";
      "" ].

(** Whether the generator expression of [coder] lets a class through. *)
Definition in_generation_set (fuel : nat) (m : Model) (c : ClassId)
    : result bool :=
  if is_enumeration m (Some c) then Ok false
  else
    rbind (is_simple_type fuel m (Some c)) (λ simple : bool,
      if simple then Ok false
      else rbind (is_in_profile m c) (λ p : bool, Ok (negb p))).

(** A generator expression with a filter, over the items [cs]. *)
Fixpoint filtered {A} (keep : A → result bool) (cs : list A) : iterable A :=
  match cs with
  | [] => ([], None)
  | c :: cs' =>
      match keep c with
      | Ok true => (c :: (filtered keep cs').1, (filtered keep cs').2)
      | Ok false => filtered keep cs'
      | Raise e => ([], Some e)
      end
  end.

(** [element_factory.select(UML.Class)]. *)
Definition select_classes (m : Model) : list ClassId :=
  seq 0 (length (classes m)).

(** The first loop of [coder]: the declaration block of one class. *)
Definition declaration_block (fuel : nat) (m : Model)
    (overrides : option Overrides) (c : ClassId) : M unit :=
  match class_override_for overrides (name (deref m c)) with
  | Some o => emit (get_override o (fmt (name (deref m c))))
  | None =>
      decl <- lift (class_declaration m c) ;;
      emit decl ;;;
      properties <- collect (variables fuel m overrides c) ;;
      match properties with
      | [] => emit "    pass"
      | _ => for_each properties (λ p, emit ("    " +:+ p))
      end
  end ;;;
  emit "" ;;;
  emit "".

(** The body of [coder] once the list [classes] is built. *)
Definition generate (fuel : nat) (m : Model)
    (overrides : option Overrides) (cs : list ClassId) : M unit :=
  emit header ;;;
  for_each cs (declaration_block fuel m overrides) ;;;
  for_each cs (operations m overrides) ;;;
  emit "" ;;;
  for_each cs (associations fuel m overrides).

(** [coder], from the content of the model file on. *)
Definition coder (fuel : nat) (stored : Model)
    (overrides : option Overrides) : M unit :=
  let m := load_model stored in
  cs <- lift (order_classes fuel m
                (filtered (in_generation_set fuel m) (select_classes m))) ;;
  generate fuel m overrides cs.

(** ** Vocabulary of the statements *)

(** [b] is a direct base of [c]. *)
Definition is_base (m : Model) (b c : ClassId) : Prop := b ∈ bases m c.

(** No class is a direct or transitive base of itself. *)
Definition acyclic (m : Model) : Prop := ∀ c, ¬ tc (is_base m) c c.

(** The same, for [c] and the classes above it only: neither [c] nor any
    of its direct or transitive bases is a base of itself. *)
Definition acyclic_above (m : Model) (c : ClassId) : Prop :=
  ∀ x, rtc (is_base m) x c → ¬ tc (is_base m) x x.

(** Whether every chain of generalizations that starts at [c] has fewer
    than [n] classes: the recursion depth a walk up from [c] needs. *)
Fixpoint shallow (m : Model) (n : nat) (c : ClassId) : bool :=
  match n with
  | 0 => false
  | S n' => forallb (shallow m n') (bases m c)
  end.

(** [a] occurs at an earlier position of [l] than [b]. *)
Definition before {A} (a b : A) (l : list A) : Prop :=
  ∃ i j, l !! i = Some a ∧ l !! j = Some b ∧ i < j.

(** The invariant of the orderer's state: nothing is yielded twice, the
    seen classes are the yielded ones, and the direct bases of a yielded
    class are yielded before it. *)
Definition ordered_state (m : Model) (st : ostate) : Prop :=
  NoDup st.1 ∧ st.2 = list_to_set st.1 ∧
  ∀ j x, st.1 !! j = Some x →
    ∀ b, is_base m b x → ∃ i, i < j ∧ st.1 !! i = Some b.

(** What one visit of a class does to a state that satisfies the
    invariant. *)
Definition visit_spec (m : Model)
    (visit : ClassId → ostate → result ostate) : Prop :=
  ∀ c st st', acyclic_above m c → ordered_state m st →
    visit c st = Ok st' →
    ordered_state m st' ∧ c ∈ st'.1 ∧
    ∃ new, st'.1 = st.1 ++ new ∧ ∀ x, x ∈ new → rtc (is_base m) x c.

(** ** Models the statements are tried on *)

Definition plain_class (n : string) (general : list ClassId) : Class :=
  mkClass (Some n) [] [] general [] [mkPackage (Some "model") false].

(** Three classes: [A] (reference 0) specializes [C] (reference 2), and
    [B] (reference 1) stands alone. *)
Definition model_abc : Model :=
  mkModel [plain_class "A" [2]; plain_class "B" []; plain_class "C" []] [].

(** [element_factory.select(UML.Property)], class by class. *)
Definition properties (m : Model) : list Property :=
  concat (map ownedAttribute (classes m)) ++ looseProperties m.

(** The placeholder names the pass rewrites. *)
Definition well_known (tv : option string) : Prop :=
  tv = Some "String" ∨ tv = Some "Integer" ∨ tv = Some "Boolean".

(** A property has a class as its type and no placeholder, or no class
    as its type and a canonical primitive name as its placeholder. *)
Definition exactly_one_type (p : Property) : Prop :=
  (is_Some (type p) ∧ typeValue p = None) ∨
  (type p = None ∧ (typeValue p = Some "str" ∨ typeValue p = Some "int")).

(** A scalar property [pn] with placeholder [tv], no class type yet. *)
Definition scalar (pn : string) (tv : option string) : Property :=
  mkProperty (Some pn) None tv false false None None None "none" None None [].

(** A class named "str" next to a class with a "String" attribute. *)
Definition model_str : Model :=
  mkModel [ plain_class "str" [];
            mkClass (Some "Holder") [scalar "text" (Some "String")] [] [] []
                    [mkPackage (Some "model") false] ] [].

(** Classes named "str" (reference 0) and "int" (reference 1), a class
    without a name (reference 2), a class [Thing] (reference 3), and a
    class with one attribute for each of the placeholders "String",
    "Integer" and "Thing". *)
Definition model_names : Model :=
  mkModel [ plain_class "str" []; plain_class "int" [];
            mkClass None [] [] [] [] [mkPackage (Some "model") false];
            plain_class "Thing" [];
            mkClass (Some "Holder")
                    [ scalar "text" (Some "String");
                      scalar "count" (Some "Integer");
                      scalar "thing" (Some "Thing") ]
                    [] [] [] [mkPackage (Some "model") false] ] [].

(** An attribute whose placeholder names no class, and an attribute with
    both a class type and the placeholder "String". *)
Definition model_unlinked : Model :=
  mkModel [ mkClass (Some "Holder")
              [ scalar "when" (Some "Date");
                set_type (Some 0) (scalar "text" (Some "String")) ]
              [] [] [] [mkPackage (Some "model") false] ] [].

(** The declaration of a plain scalar attribute, with [dv] for what
    [default_value] contributes. *)
Definition scalar_line (a : Property) (dv : string) : string :=
  fmt (pname a) +:+ ": _attribute[" +:+ fmt (typeValue a)
  +:+ "] = _attribute(" +:+ dq +:+ fmt (pname a) +:+ dq +:+ ", "
  +:+ fmt (typeValue a) +:+ dv +:+ ")".

(** The attribute [a] of class [c] reaches the last rule of [variables]:
    no override, no association, not derived, not of an enumeration
    type. *)
Definition plain_scalar (m : Model) (overrides : option Overrides)
    (c : ClassId) (a : Property) : Prop :=
  override_for overrides (full_name_of m c (pname a)) = None ∧
  association a = false ∧ isDerived a = false ∧
  is_enumeration m (type a) = false.

Definition is_ascii (s : string) : bool :=
  forallb (λ ch, (nat_of_ascii ch <? 128)%nat) (list_ascii_of_string s).

(** A scalar property with a default value. *)
Definition scalar_with_default (pn : string) (tv : option string)
    (d : string) : Property :=
  mkProperty (Some pn) None tv false false None None None "none" None
             (Some d) [].

(** A class [Switch] with a Boolean attribute [on] whose default is
    "true", a text attribute [label] whose default is "x", and an
    attribute [since] of the unknown scalar type "Date" with a default;
    as [storage.load] leaves it. *)
Definition model_switch : Model :=
  mkModel [ mkClass (Some "Switch")
              [ scalar_with_default "on" (Some "Boolean") "true";
                scalar_with_default "label" (Some "String") "x";
                scalar_with_default "since" (Some "Date") "today" ]
              [] [] [] [mkPackage (Some "model") false] ] [].

(** An override table with the class-level key "Switch". *)
Definition overrides_switch : Overrides :=
  mkOverrides (λ key, String.eqb key "Switch")
              (λ _, "class Switch: ...") (λ _, "").

(** An association end [pn] of type [t]. *)
Definition association_end (pn : string) (t : ClassId) (up : string)
    (slots : list Slot) : Property :=
  mkProperty (Some pn) (Some t) None false true (Some up) None (Some up)
             "none" None None slots.

(** [Owner] (reference 0) with the association end [children] to [Child]
    (reference 1) and the operation [update]. *)
Definition model_owner : Model :=
  mkModel [ mkClass (Some "Owner") [association_end "children" 1 "*" []]
                    [mkOperation (Some "update")] [] []
                    [mkPackage (Some "model") false];
            plain_class "Child" [] ] [].

(** An override table with the keys "Owner.children" and
    "Owner.update". *)
Definition overrides_children : Overrides :=
  mkOverrides
    (λ key, String.eqb key "Owner.children" || String.eqb key "Owner.update")
    (λ key, if String.eqb key "Owner.children"
            then "Owner.children = association(" +:+ dq +:+ "children"
                 +:+ dq +:+ ", Child, composite=True)"
            else "def Owner_update(self): ...")
    (λ key, if String.eqb key "Owner.children" then "relation_many[Child]"
            else "Callable[[Owner], None]").

(** A class is a simple-attribute class when it or one of its direct or
    transitive bases has the stereotype "SimpleAttribute" applied. *)
Definition simple_class (m : Model) (t : ClassId) : Prop :=
  ∃ anc, rtc (is_base m) anc t ∧
         Some "SimpleAttribute" ∈ appliedStereotypes (deref m anc).

(** The declaration an association to a simple-attribute class collapses
    to. *)
Definition str_line (a : Property) : string :=
  fmt (pname a) +:+ ": _attribute[str] = _attribute(" +:+ dq
  +:+ fmt (pname a) +:+ dq +:+ ", str)".

(** [Code] (reference 0) is a simple-attribute class.  [Holder]
    (reference 1) has a scalar attribute [code] whose placeholder names
    [Code], and a multi-valued association end [codes] to [Code]; as
    [storage.load] leaves it. *)
Definition model_code : Model :=
  mkModel [ mkClass (Some "Code") [] [] [] [Some "SimpleAttribute"]
                    [mkPackage (Some "model") false];
            mkClass (Some "Holder")
                    [ scalar "code" (Some "Code");
                      association_end "codes" 0 "*" [] ]
                    [] [] [] [mkPackage (Some "model") false] ] [].

(** An override table with the one key "Holder.codes". *)
Definition overrides_codes : Overrides :=
  mkOverrides
    (λ key, String.eqb key "Holder.codes")
    (λ _, "Holder.codes = association(" +:+ dq +:+ "codes" +:+ dq
          +:+ ", Code)")
    (λ _, "relation_many[Code]").

(** A text in double quotes. *)
Definition quoted (s : string) : string := dq +:+ s +:+ dq.

(** [Owner] (reference 0) declares, in this order, the association ends
    [zeta] and [alpha] to [Child] (reference 1), the end [narrowed], which
    redefines [zeta] and subsets [union], and the derived union [union]. *)
Definition model_wiring : Model :=
  mkModel
    [ mkClass (Some "Owner")
        [ association_end "zeta" 1 "*" [];
          association_end "alpha" 1 "*" [];
          association_end "narrowed" 1 "*"
            [ mkSlot (Some "redefines") (Some "zeta");
              mkSlot (Some "subsets") (Some "union") ];
          mkProperty (Some "union") (Some 1) None true true (Some "*") None
                     (Some "*") "none" None None [] ]
        [] [] [] [mkPackage (Some "model") false];
      plain_class "Child" [] ] [].

(** The statement the first loop of [associations] puts into its buffer
    for the attribute [a] of class [c] whose type is the class [t]. *)
Definition redefinition_statement (m : Model) (c : ClassId) (a : Property)
    (t : ClassId) : string :=
  full_name_of m c (pname a) +:+ " = redefine(" +:+ fmt (name (deref m c))
  +:+ ", " +:+ dq +:+ fmt (pname a) +:+ dq +:+ ", "
  +:+ fmt (name (deref m t)) +:+ ", " +:+ fmt (redefines a) +:+ ")".

(** The attributes whose statement is a redefinition: no override entry
    has the qualified name, the attribute is backed by an association,
    its type is the class [t], which is not a simple-attribute class, and
    a "redefines" slot gives it a value that is not empty. *)
Definition redefining (m : Model) (overrides : option Overrides)
    (c : ClassId) (a : Property) (t : ClassId) : Prop :=
  override_for overrides (full_name_of m c (pname a)) = None ∧
  association a = true ∧
  type a = Some t ∧
  ¬ simple_class m t ∧
  truthy (redefines a) = true.

(** What the first loop of [associations] does for one attribute, seen
    from an empty buffer: the events [r.1] it yields at once and the
    statements [r.2] it puts into the buffer.  A redefining attribute
    yields nothing and buffers its redefinition statement; nothing but
    a redefinition is buffered; and what is yielded at once is at most
    one line. *)
Definition first_loop_round (fuel : nat) (m : Model)
    (overrides : option Overrides) (c : ClassId) (a : Property)
    (r : list event * list string) : Prop :=
  association_of fuel m overrides c [] a = (r.1, Ok r.2) ∧
  (∀ t, redefining m overrides c a t →
        r = ([], [redefinition_statement m c a t])) ∧
  (r.2 ≠ [] → ∃ t, redefining m overrides c a t) ∧
  (r.1 = [] ∨ ∃ line, r.1 = [Line line]).

(** The second loop of [associations]: the subset statements. *)
Definition subset_statements (fuel : nat) (m : Model) (c : ClassId)
    : M unit :=
  for_each (ownedAttribute (deref m c))
           (λ a, for_each (slot a) (subsets_of_slot fuel m c a)).






(** [Task] (reference 0) has the operation [run] and the association end
    [steps] to [Step] (reference 1). *)
Definition model_task : Model :=
  mkModel [ mkClass (Some "Task") [association_end "steps" 1 "*" []]
                    [mkOperation (Some "run")] [] []
                    [mkPackage (Some "model") false];
            plain_class "Step" [] ] [].


(** ** Further definitions *)

(** [is_in_toplevel_package(c, package_name)] on the chain of owning
    packages of [c]: the inner [test] walks up to the package without
    owner and compares its name. *)
Fixpoint toplevel_test (package_name : string) (chain : list Package)
    : result bool :=
  match chain with
  | [] => Raise AttributeError
  | p :: rest =>
      match rest with
      | [] => Ok (bool_decide (pkg_name p = Some package_name))
      | _ => toplevel_test package_name rest
      end
  end.
Definition is_in_toplevel_package (m : Model) (c : ClassId)
    (package_name : string) : result bool :=
  toplevel_test package_name (owningPackage (deref m c)).

(** A set of classes that holds the direct bases of each of its
    members. *)
Definition base_closed (m : Model) (s : gset ClassId) : Prop :=
  ∀ x, x ∈ s → ∀ b, is_base m b x → b ∈ s.

(** Two classes that specialize each other. *)
Definition model_cycle : Model :=
  mkModel [plain_class "A" [1]; plain_class "B" [0]] [].

(** An unnamed class (reference 0), two classes named [Unit]
    (references 1 and 2), and a class [Box] (reference 3) that
    specializes the second [Unit] and has an attribute with the
    placeholder "Unit" and an association end without placeholder. *)
Definition model_units : Model :=
  mkModel [ mkClass None [] [] [] [] [mkPackage (Some "model") false];
            plain_class "Unit" []; plain_class "Unit" [];
            mkClass (Some "Box")
                    [ scalar "unit" (Some "Unit");
                      association_end "content" 1 "*" [] ]
                    [] [2] [] [mkPackage (Some "model") false] ] [].

(** The name [nm] is the name of an attribute of a direct or transitive
    base of [owner]. *)
Definition reused_above (m : Model) (owner : ClassId)
    (nm : option string) : Prop :=
  ∃ o attr, tc (is_base m) o owner ∧
            attr ∈ ownedAttribute (deref m o) ∧ pname attr = nm.

(** [Base] (reference 0) and [Middle] (reference 1, a [Base]) and [Leaf]
    (reference 2, a [Middle]); [Base] and [Leaf] both have an end
    [items]. *)
Definition model_reuse : Model :=
  mkModel [ mkClass (Some "Base") [association_end "items" 0 "*" []] [] []
                    [Some "SimpleAttribute"] [mkPackage (Some "model") false];
            plain_class "Middle" [0];
            mkClass (Some "Leaf") [association_end "items" 0 "*" []] [] [1]
                    [] [ mkPackage (Some "inner") false;
                         mkPackage (Some "UMLProfile") true;
                         mkPackage (Some "root") false ] ] [].

(** The order [sorted] puts its items in: by key. *)
Definition key_le {A} (key : A → string) (x y : A) : Prop :=
  String.leb (key x) (key y) = true.

(** [D] (reference 2) specializes [Left] and [Right], listed in this
    order in [model_diamond] and in the other order in
    [model_diamond']. *)
Definition model_diamond : Model :=
  mkModel [plain_class "Right" []; plain_class "Left" [];
           plain_class "D" [1; 0]] [].
Definition model_diamond' : Model :=
  mkModel [plain_class "Right" []; plain_class "Left" [];
           plain_class "D" [0; 1]] [].

(** An override table without entries. *)
Definition overrides_none : Overrides :=
  mkOverrides (λ _, false) (λ _, "") (λ _, "").

(** [Pool] (reference 1) has an attribute of the enumeration type
    [EmptyKind] (reference 0), which has no literal, and an operation
    [drain]. *)
Definition model_empty_enum : Model :=
  mkModel [ plain_class "EmptyKind" [];
            mkClass (Some "Pool") [set_type (Some 0) (scalar "state" None)]
                    [mkOperation (Some "drain")] [] []
                    [mkPackage (Some "model") false] ] [].

(** A class without owning package. *)
Definition model_homeless : Model :=
  mkModel [plain_class "Settled" []; mkClass (Some "Stray") [] [] [] [] []] [].

(** [Pen] (reference 1) specializes [ColorKind] (reference 0), which the
    filter of [coder] holds back as an enumeration. *)
Definition model_kind : Model :=
  mkModel [plain_class "ColorKind" []; plain_class "Pen" [0]] [].

(** * Properties *)

(** ** The generalization graph *)

Section graph.
Context (m : Model).

Lemma bases_in_range b c : is_base m b c → c < length (classes m).
Proof.
  unfold is_base, bases, deref. intros Hb.
  destruct (decide (c < length (classes m))) as [|Hge]; [done|].
  rewrite nth_overflow in Hb by lia. simpl in Hb. by apply elem_of_nil in Hb.
Qed.

Lemma tc_last (x y : ClassId) :
  tc (is_base m) x y → ∃ z, rtc (is_base m) x z ∧ is_base m z y.
Proof.
  induction 1 as [x y H|x z y H _ (w & Hw & Hl)].
  - exists x. split; [apply rtc_refl | done].
  - exists w. split; [by eapply rtc_l | done].
Qed.

Lemma acyclic_above_base b c :
  acyclic_above m c → is_base m b c → acyclic_above m b.
Proof. intros Hac Hb x Hx. apply Hac. by eapply rtc_r. Qed.

Lemma acyclic_acyclic_above c : acyclic m → acyclic_above m c.
Proof. intros Hac x _. apply Hac. Qed.

Lemma shallow_stack n : ∀ stk c,
  acyclic_above m c →
  NoDup stk →
  (∀ x, x ∈ stk → x < length (classes m)) →
  (∀ x, x ∈ stk → tc (is_base m) c x) →
  length (classes m) < n + length stk →
  shallow m n c = true.
Proof.
  induction n as [|n IH]; intros stk c Hac Hnd Hrange Hpath Hlen.
  - exfalso.
    assert (stk ⊆+ seq 0 (length (classes m))) as Hsub.
    { apply NoDup_submseteq; [done|].
      intros x Hx. apply elem_of_seq. specialize (Hrange x Hx). lia. }
    apply submseteq_length in Hsub. rewrite length_seq in Hsub. lia.
  - simpl. apply forallb_forall. intros b Hb.
    apply list_elem_of_In in Hb.
    apply (IH (c :: stk)); [by eapply acyclic_above_base| | | |simpl; lia].
    + constructor; [|done]. intros Hc.
      exact (Hac c (rtc_refl _ _) (Hpath c Hc)).
    + intros x [->|Hx]%elem_of_cons; [by eapply bases_in_range|by apply Hrange].
    + intros x [->|Hx]%elem_of_cons; [by apply tc_once|].
      eapply tc_l; [exact Hb|by apply Hpath].
Qed.

(** Without a cycle above it, a walk up from a class needs a depth of at
    most one more than the number of classes. *)
Lemma acyclic_shallow n c :
  acyclic_above m c → length (classes m) < n → shallow m n c = true.
Proof.
  intros Hac Hn. apply (shallow_stack n [] c); try done.
  - constructor.
  - intros x Hx. by apply elem_of_nil in Hx.
  - intros x Hx. by apply elem_of_nil in Hx.
  - simpl. lia.
Qed.

Lemma shallow_base n b c :
  shallow m (S n) c = true → is_base m b c → shallow m n b = true.
Proof.
  simpl. intros H Hb. rewrite forallb_forall in H.
  apply H. by apply list_elem_of_In.
Qed.

(** A model in which some depth suffices for every class has no cycle. *)
Lemma shallow_acyclic n :
  (∀ c, c < length (classes m) → shallow m n c = true) → acyclic m.
Proof.
  intros Hall c Hc.
  assert (∀ k x, shallow m k x = true → tc (is_base m) x x → False) as Hno.
  { induction k as [|k IH]; intros x Hs Hx; [done|].
    destruct (tc_last _ _ Hx) as (z & Hxz & Hzx).
    apply (IH z); [by eapply shallow_base|].
    eapply tc_rtc_r; [by apply tc_once|done]. }
  destruct (tc_last _ _ Hc) as (z & _ & Hz).
  eapply Hno; [|exact Hc]. apply Hall. by eapply bases_in_range.
Qed.
End graph.

(** A check by evaluation that a model has no cycle. *)
Lemma acyclic_check (m : Model) (n : nat) :
  forallb (shallow m n) (seq 0 (length (classes m))) = true → acyclic m.
Proof.
  intros H. apply (shallow_acyclic m n). intros c Hc.
  rewrite forallb_forall in H. apply H. apply in_seq. lia.
Qed.

Ltac no_cycle m n :=
  try apply acyclic_acyclic_above;
  apply (acyclic_check m n); vm_compute; reflexivity.

(** ** The class orderer *)

Section orderer.
Context (m : Model).

Lemma visit_all_app visit cs1 cs2 st :
  visit_all visit (cs1 ++ cs2) st
  = rbind (visit_all visit cs1 st) (visit_all visit cs2).
Proof.
  revert st. induction cs1 as [|c cs1 IH]; intros st; simpl; [done|].
  destruct (visit c st) as [st1|e]; simpl; [apply IH|done].
Qed.

Lemma visit_all_spec visit cs : visit_spec m visit →
  (∀ c, c ∈ cs → acyclic_above m c) →
  ∀ st st', ordered_state m st → visit_all visit cs st = Ok st' →
    ordered_state m st' ∧ (∀ c, c ∈ cs → c ∈ st'.1) ∧
    ∃ new, st'.1 = st.1 ++ new ∧
      ∀ x, x ∈ new → ∃ c, c ∈ cs ∧ rtc (is_base m) x c.
Proof.
  intros Hvisit. induction cs as [|c cs IH]; intros Hacs st st' Hst Hrun.
  - simpl in Hrun. injection Hrun as <-. split; [done|]. split.
    + intros c Hc. by apply elem_of_nil in Hc.
    + exists []. split; [by rewrite app_nil_r|].
      intros x Hx. by apply elem_of_nil in Hx.
  - simpl in Hrun. destruct (visit c st) as [st1|e] eqn:Hc; [|done].
    simpl in Hrun.
    destruct (Hvisit _ _ _ (Hacs c ltac:(by left)) Hst Hc)
      as (Hst1 & Hin1 & new1 & Hout1 & Hnew1).
    destruct (IH (λ c' Hc', Hacs c' ltac:(by right)) _ _ Hst1 Hrun)
      as (Hst' & Hin & new2 & Hout2 & Hnew2).
    split; [done|]. split.
    + intros c' [->|Hc']%elem_of_cons; [|by apply Hin].
      rewrite Hout2. apply elem_of_app. by left.
    + exists (new1 ++ new2). split; [by rewrite Hout2, Hout1, app_assoc|].
      intros x [Hx|Hx]%elem_of_app.
      * exists c. split; [by left|by apply Hnew1].
      * destruct (Hnew2 x Hx) as (c' & Hc' & Hr).
        exists c'. split; [by right|done].
Qed.

Lemma order_spec fuel : visit_spec m (order fuel m).
Proof.
  induction fuel as [|fuel IH]; intros c st st' Hac Hst Hrun; [done|].
  simpl in Hrun. destruct (decide (c ∈ st.2)) as [Hseen|Hnew].
  - injection Hrun as <-. split; [done|]. split.
    + destruct Hst as (_ & Hs & _). rewrite Hs in Hseen.
      by apply elem_of_list_to_set in Hseen.
    + exists []. split; [by rewrite app_nil_r|].
      intros x Hx. by apply elem_of_nil in Hx.
  - destruct (visit_all (order fuel m) (bases m c) st) as [st1|e] eqn:Hb;
      [|done].
    simpl in Hrun. injection Hrun as <-.
    destruct (visit_all_spec _ _ IH
                (λ b Hbc, acyclic_above_base m b c Hac Hbc) _ _ Hst Hb)
      as ((Hnd1 & Hs1 & Hcl1) & Hin1 & new & Hout1 & Hnew1).
    assert (c ∉ st1.1) as Hc1.
    { rewrite Hout1. intros [Hc|Hc]%elem_of_app.
      - destruct Hst as (_ & Hs & _). apply Hnew. rewrite Hs.
        by apply elem_of_list_to_set.
      - destruct (Hnew1 c Hc) as (b & Hbc & Hr).
        apply (Hac c (rtc_refl _ _)).
        eapply tc_rtc_l; [exact Hr|by apply tc_once]. }
    split; [|split].
    + split; [|split]; simpl.
      * apply NoDup_app. split; [done|]. split; [|apply NoDup_singleton].
        intros x Hx ->%list_elem_of_singleton. done.
      * rewrite Hs1, list_to_set_app_L. simpl.
        rewrite (right_id_L ∅ (∪)). apply (comm_L (∪)).
      * intros j x Hj b Hbx.
        destruct (decide (j < length st1.1)) as [Hlt|Hge].
        -- rewrite lookup_app_l in Hj by done.
           destruct (Hcl1 j x Hj b Hbx) as (i & Hi & Hbi).
           exists i. split; [done|]. rewrite lookup_app_l by lia. done.
        -- rewrite lookup_app_r in Hj by lia.
           apply list_lookup_singleton_Some in Hj as [Hj ->].
           destruct (proj1 (list_elem_of_lookup _ _) (Hin1 b Hbx)) as [i Hi].
           exists i. split.
           ++ apply lookup_lt_Some in Hi. lia.
           ++ apply lookup_app_l_Some. done.
    + simpl. apply elem_of_app. right. by apply list_elem_of_singleton.
    + exists (new ++ [c]). simpl. split; [by rewrite Hout1, app_assoc|].
      intros x [Hx|Hx%list_elem_of_singleton]%elem_of_app;
        [|subst x; apply rtc_refl].
      destruct (Hnew1 x Hx) as (b & Hbc & Hr).
      eapply rtc_r; [exact Hr|exact Hbc].
Qed.

Lemma visit_all_total visit cs :
  (∀ c st, c ∈ cs → ∃ st', visit c st = Ok st') →
  ∀ st, ∃ st', visit_all visit cs st = Ok st'.
Proof.
  induction cs as [|c cs IH]; intros Hv st; simpl; [by eexists|].
  destruct (Hv c st) as [st1 ->]; [by left|]. simpl.
  apply IH. intros c' st' Hc'. apply Hv. by right.
Qed.

Lemma order_total fuel : ∀ c st,
  shallow m fuel c = true → ∃ st', order fuel m c st = Ok st'.
Proof.
  induction fuel as [|fuel IH]; intros c st Hs; [done|].
  simpl. destruct (decide (c ∈ st.2)); [by eexists|].
  destruct (visit_all_total (order fuel m) (bases m c)) with (st := st)
    as [st1 ->].
  - intros b st0 Hb. apply IH. by eapply shallow_base.
  - simpl. by eexists.
Qed.

Lemma ordered_state_init : ordered_state m ([], ∅).
Proof.
  split; [constructor|]. split; [done|]. intros j x Hj. done.
Qed.


End orderer.

(** ** Traces of loops *)

Lemma bind_ok {A B} (x : M A) (k : A → M B) b :
  (bind x k).2 = Ok b →
  ∃ a, x.2 = Ok a ∧ (k a).2 = Ok b ∧ (bind x k).1 = x.1 ++ (k a).1.
Proof.
  unfold bind. destruct x as [t [a|e]]; simpl; [|done].
  intros H. by exists a.
Qed.

(** A loop that completes leaves the traces of its rounds, in order. *)
Lemma for_each_ok {A} (l : list A) (body : A → M unit) :
  (for_each l body).2 = Ok tt →
  (for_each l body).1 = concat (map (λ x, (body x).1) l) ∧
  ∀ x, x ∈ l → (body x).2 = Ok tt.
Proof.
  induction l as [|x l IH]; simpl; intros H.
  - split; [done|]. intros x Hx. by apply elem_of_nil in Hx.
  - apply bind_ok in H as ([] & Hx & Hl & ->).
    destruct (IH Hl) as [-> Hall]. split; [done|].
    intros y [->|Hy]%elem_of_cons; [done|by apply Hall].
Qed.


Lemma before_app_l {A} (a b : A) l1 l2 :
  a ∈ l1 → b ∉ l1 → b ∈ l1 ++ l2 → before a b (l1 ++ l2).
Proof.
  intros [i Hi]%list_elem_of_lookup Hb [Hb'|[j Hj]%list_elem_of_lookup]%elem_of_app;
    [done|].
  exists i, (length l1 + j). split; [by apply lookup_app_l_Some|].
  split; [by rewrite lookup_app_r, Nat.add_comm, Nat.add_sub by lia|].
  apply lookup_lt_Some in Hi. lia.
Qed.

(** ** C1: bases first, each class once *)



(** ** C6: what is kept of the input order *)

(** [model_abc], selected in the order A, B, C, comes out as C, A, B: the
    classes B and C, between which there is no generalization, have
    changed places. *)
Lemma order_classes_not_stable :
  order_classes 4 model_abc ([0; 1; 2], None) = Ok [2; 0; 1] ∧
  ¬ tc (is_base model_abc) 1 2 ∧
  ¬ tc (is_base model_abc) 2 1 ∧
  before 1 2 [0; 1; 2] ∧
  ¬ before 1 2 [2; 0; 1].
Proof.
  split; [by vm_compute|].
  split; [|split; [|split]].
  - intros (z & _ & Hz)%tc_last. by apply elem_of_nil in Hz.
  - intros (z & _ & Hz)%tc_last. by apply elem_of_nil in Hz.
  - exists 1, 2. by repeat split; [..|lia].
  - intros (i & j & Hi & Hj & Hij).
    destruct i as [|[|[|i]]]; try discriminate Hi.
    destruct j as [|[|[|j]]]; try discriminate Hj. lia.
Qed.

(** C6, as amended.  For input classes without a cycle among them and
    the classes above them, with enough recursion depth:
    when [x] stands before [y] in the input and [y] is neither [x], nor a
    class that stands before [x], nor a direct or transitive base of any
    of these, then [x] is at an earlier position of the output than
    [y]. *)
Theorem order_classes_keeps_input_order (fuel : nat) (m : Model)
    (pre post : list ClassId) (x y : ClassId) :
  (∀ c, c ∈ pre ++ x :: post → acyclic_above m c) →
  length (classes m) < fuel →
  y ∈ post →
  (∀ c, c ∈ pre ++ [x] → ¬ rtc (is_base m) y c) →
  ∃ out, order_classes fuel m (pre ++ x :: post, None) = Ok out ∧
    before x y out.
Proof.
  intros Hac Hfuel Hy Hfree. unfold order_classes. simpl.
  replace (pre ++ x :: post) with ((pre ++ [x]) ++ post)
    by (by rewrite <- app_assoc).
  rewrite visit_all_app.
  assert (∀ c, c ∈ pre ++ [x] → acyclic_above m c) as Hac1.
  { intros c Hc. apply Hac. apply elem_of_app in Hc as [Hc|Hc].
    - apply elem_of_app. by left.
    - apply list_elem_of_singleton in Hc as ->.
      apply elem_of_app. right. by left. }
  assert (∀ c, c ∈ post → acyclic_above m c) as Hac2.
  { intros c Hc. apply Hac. apply elem_of_app. right. by right. }
  assert (∀ cs st, (∀ c, c ∈ cs → acyclic_above m c) →
            ∃ st', visit_all (order fuel m) cs st = Ok st') as Htot.
  { intros cs st Hcs. apply visit_all_total. intros c st0 Hc.
    apply order_total. apply acyclic_shallow; [by apply Hcs|done]. }
  destruct (Htot (pre ++ [x]) ([], ∅) Hac1) as [st1 Hrun1].
  rewrite Hrun1. simpl.
  destruct (Htot post st1 Hac2) as [st2 Hrun2]. rewrite Hrun2. simpl.
  exists st2.1. split; [done|].
  destruct (visit_all_spec m _ _ (order_spec m fuel) Hac1 _ _
              (ordered_state_init m) Hrun1) as (Hst1 & Hin1 & new1 & Ho1 & Hn1).
  destruct (visit_all_spec m _ _ (order_spec m fuel) Hac2 _ _ Hst1 Hrun2)
    as (Hst2 & Hin2 & new2 & Ho2 & Hn2).
  rewrite Ho2. apply before_app_l.
  - apply Hin1. apply elem_of_app. right. by apply list_elem_of_singleton.
  - rewrite Ho1. simpl. intros Hy1.
    destruct (Hn1 y Hy1) as (c & Hc & Hr). by apply (Hfree c).
  - rewrite <- Ho2. by apply Hin2.
Qed.

Lemma order_classes_keeps_input_order_witness :
  ∃ out, order_classes 4 model_abc ([] ++ 1 :: [0; 2], None) = Ok out ∧
    before 1 0 out.
Proof.
  apply (order_classes_keeps_input_order 4 model_abc [] [0; 2] 1 0).
  - intros c _. no_cycle model_abc 4.
  - vm_compute. lia.
  - apply elem_of_cons. by left.
  - intros c Hc%list_elem_of_singleton. subst c.
    intros [H|(z & _ & Hz)]%rtc_inv_r; [done|].
    by apply elem_of_nil in Hz.
Defined.

(** ** The type linker *)

Section linker.
Context (m : Model).

Lemma properties_linked :
  properties (last_minute_updates m) = map (link_property m) (properties m).
Proof.
  unfold properties, last_minute_updates. simpl.
  rewrite map_app. f_equal.
  induction (classes m) as [|c cs IH]; simpl; [done|].
  by rewrite map_app, IH.
Qed.

(** The pass leaves the class names, so that a second pass finds the
    classes the first one found. *)
Lemma class_named_linked n :
  class_named (last_minute_updates m) n = class_named m n.
Proof.
  unfold class_named, last_minute_updates. simpl.
  change (map ?f ?l) with (f <$> l).
  rewrite list_find_fmap, <- option_fmap_compose.
  change (list_find _ (classes m))
    with (list_find (λ c : Class, name c = n) (classes m)).
  by destruct (list_find _ _) as [[i c]|].
Qed.

Lemma class_named_None n :
  (∀ c, c ∈ classes m → name c ≠ n) → class_named m n = None.
Proof.
  intros H. unfold class_named.
  destruct (list_find _ _) as [[i c]|] eqn:Hf; [|done].
  apply list_find_Some in Hf as (Hi & Hn & _).
  exfalso. apply (H c); [|done]. by eapply list_elem_of_lookup_2.
Qed.

(** The four ways through the body of the loop. *)
Lemma link_property_cases (p : Property) :
  (typeValue p = Some "String" ∧
   link_property m p = set_typeValue (Some "str") p) ∨
  ((typeValue p = Some "Integer" ∨ typeValue p = Some "Boolean") ∧
   link_property m p = set_typeValue (Some "int") p) ∨
  (¬ well_known (typeValue p) ∧
   ∃ c, class_named m (typeValue p) = Some c ∧
        link_property m p = set_typeValue None (set_type (Some c) p)) ∨
  (¬ well_known (typeValue p) ∧
   class_named m (typeValue p) = None ∧ link_property m p = p).
Proof.
  unfold link_property, well_known.
  destruct (decide (typeValue p = Some "String")) as [Hs|Hs].
  { left. by rewrite bool_decide_eq_true_2. }
  rewrite (bool_decide_eq_false_2 _ Hs).
  destruct (decide (typeValue p = Some "Integer")) as [Hi|Hi].
  { right. left. rewrite (bool_decide_eq_true_2 _ Hi). split; [by left|done]. }
  rewrite (bool_decide_eq_false_2 _ Hi).
  destruct (decide (typeValue p = Some "Boolean")) as [Hb|Hb].
  { right. left. rewrite (bool_decide_eq_true_2 _ Hb). split; [by right|done]. }
  rewrite (bool_decide_eq_false_2 _ Hb). simpl.
  right. right.
  assert (¬ (typeValue p = Some "String" ∨ typeValue p = Some "Integer"
             ∨ typeValue p = Some "Boolean")) as Hn by tauto.
  destruct (class_named m (typeValue p)) as [c|]; [left|right].
  - split; [done|]. by exists c.
  - done.
Qed.

Lemma link_property_again (p : Property) :
  (∀ c, c ∈ classes m →
     name c ≠ None ∧ name c ≠ Some "str" ∧ name c ≠ Some "int") →
  link_property (last_minute_updates m) (link_property m p)
  = link_property m p.
Proof.
  intros Hnames.
  assert (∀ q n, (n = None ∨ n = Some "str" ∨ n = Some "int") →
            typeValue q = n →
            link_property (last_minute_updates m) q = q) as Hfix.
  { intros q n Hn Hq. unfold link_property. rewrite Hq.
    rewrite class_named_linked, class_named_None.
    - by destruct Hn as [-> | [-> | ->]].
    - intros c Hc Hcn. destruct (Hnames c Hc) as (H1 & H2 & H3).
      destruct Hn as [-> | [-> | ->]]; done. }
  destruct (link_property_cases p)
    as [[_ ->]|[[_ ->]|[(_ & c & _ & ->)|(Hn & Hc & ->)]]].
  - apply (Hfix _ (Some "str")); [by right; left|done].
  - apply (Hfix _ (Some "int")); [by right; right|done].
  - apply (Hfix _ None); [by left|done].
  - unfold link_property, well_known in *.
    rewrite !bool_decide_eq_false_2 by tauto. simpl.
    by rewrite class_named_linked, Hc.
Qed.
End linker.

(** ** C3: running the type linker twice *)

(** In [model_names], after one pass, [text] and [count] have the
    placeholders "str" and "int" and no class type, and [thing] has the
    class [Thing] as its type.  A second pass finds the classes named
    "str" and "int" and makes them the types of [text] and [count], and
    finds the class without a name for the cleared placeholder of [thing]
    and makes it the type of [thing]. *)
Lemma linking_twice_differs :
  map (λ p, (pname p, type p, typeValue p))
      (properties (last_minute_updates model_names))
  = [ (Some "text", None, Some "str");
      (Some "count", None, Some "int");
      (Some "thing", Some 3, None) ] ∧
  map (λ p, (pname p, type p, typeValue p))
      (properties (last_minute_updates (last_minute_updates model_names)))
  = [ (Some "text", Some 0, None);
      (Some "count", Some 1, None);
      (Some "thing", Some 2, None) ].
Proof. split; reflexivity. Qed.

(** C3, as amended.  When no class of the model is unnamed or named "str"
    or "int", a second pass of the type linker changes nothing: the model,
    and with it the class type and the placeholder of every property, is
    as the first pass left it. *)
Theorem linking_idempotent (m : Model) :
  (∀ c, c ∈ classes m →
     name c ≠ None ∧ name c ≠ Some "str" ∧ name c ≠ Some "int") →
  last_minute_updates (last_minute_updates m) = last_minute_updates m.
Proof.
  intros Hnames.
  assert (∀ ps, map (link_property (last_minute_updates m))
                    (map (link_property m) ps)
                = map (link_property m) ps) as Hps.
  { intros ps. rewrite map_map. apply map_ext. intros p.
    by apply link_property_again. }
  unfold last_minute_updates at 1 3. f_equal.
  - simpl. rewrite map_map. apply map_ext. intros c.
    unfold set_ownedAttribute. simpl. by rewrite Hps.
  - simpl. apply Hps.
Qed.

Lemma linking_idempotent_witness :
  last_minute_updates (last_minute_updates model_switch)
  = last_minute_updates model_switch.
Proof.
  apply (linking_idempotent model_switch).
  intros c Hc. apply list_elem_of_singleton in Hc as ->. by repeat split.
Defined.

(** ** C4: what a property has after linking *)

(** After the pass over [model_unlinked] the attribute [when] has neither
    a class type nor a canonical primitive name (its placeholder "Date" is
    left as it was), and the attribute [text] has both. *)
Lemma linked_neither_or_both :
  map (λ p, (pname p, type p, typeValue p))
      (properties (last_minute_updates model_unlinked))
  = [ (Some "when", None, Some "Date"); (Some "text", Some 0, Some "str") ] ∧
  Forall (λ p, ¬ exactly_one_type p)
         (properties (last_minute_updates model_unlinked)).
Proof.
  split; [reflexivity|].
  repeat constructor; simpl.
  - intros [[[? [=]] _]|[_ [[=]|[=]]]].
  - intros [[_ [=]]|[[=] _]].
Qed.

(** C4, as amended.  The properties after the pass are the properties
    before it, each put through the body of the loop; and a property that
    before the pass had a well-known placeholder and no class type, or a
    placeholder that is not well-known and is the name of a class, has
    after the pass exactly one of a class type and a canonical primitive
    name. *)
Theorem linked_exactly_one (m : Model) :
  properties (last_minute_updates m) = map (link_property m) (properties m) ∧
  ∀ p,
    (well_known (typeValue p) ∧ type p = None) ∨
    (¬ well_known (typeValue p) ∧ is_Some (class_named m (typeValue p))) →
    exactly_one_type (link_property m p).
Proof.
  split; [apply properties_linked|].
  intros p Hp. unfold exactly_one_type.
  destruct (link_property_cases m p)
    as [[Hs ->]|[[Hib ->]|[(_ & c & _ & ->)|(Hn & Hc & ->)]]]; simpl.
  - destruct Hp as [[_ ->]|[Hn _]]; [|exfalso; apply Hn; by left].
    right. split; [done|]. by left.
  - destruct Hp as [[_ ->]|[Hn _]];
      [|exfalso; apply Hn; right; exact Hib].
    right. split; [done|]. by right.
  - left. split; [by eexists|done].
  - destruct Hp as [[Hw _]|[_ [c Hc']]]; [done|congruence].
Qed.

Lemma linked_exactly_one_witness :
  exactly_one_type (link_property model_str (scalar "text" (Some "String"))).
Proof.
  apply (proj2 (linked_exactly_one model_str)).
  left. split; [|reflexivity]. left. reflexivity.
Defined.

(** ** Exceptions in loops *)

Lemma bind_raise {A B} (x : M A) (k : A → M B) e :
  x.2 = Raise e → (bind x k).2 = Raise e.
Proof. unfold bind. by intros ->. Qed.

Lemma bind_result {A B} (x : M A) (k : A → M B) a :
  x.2 = Ok a → (bind x k).2 = (k a).2.
Proof. unfold bind. by intros ->. Qed.

(** A loop one of whose rounds raises, raises. *)
Lemma for_each_raise {A} (l : list A) (body : A → M unit) x e :
  x ∈ l → (body x).2 = Raise e → ∃ e', (for_each l body).2 = Raise e'.
Proof.
  induction l as [|y l IH]; intros Hx He; [by apply elem_of_nil in Hx|].
  simpl. destruct (body y).2 as [[]|e0] eqn:Hy.
  - rewrite (bind_result _ _ _ Hy).
    apply elem_of_cons in Hx as [->|Hx]; [congruence|by apply IH].
  - exists e0. by apply bind_raise.
Qed.

Lemma insert_sorted_elem {A} (key : A → string) x y l :
  x ∈ insert_sorted key y l ↔ x = y ∨ x ∈ l.
Proof.
  induction l as [|z l IH]; simpl.
  - rewrite list_elem_of_singleton, elem_of_nil. tauto.
  - destruct (String.leb _ _); rewrite !elem_of_cons; [done|].
    rewrite IH. tauto.
Qed.

Lemma sorted_elem {A} (key : A → string) x l : x ∈ sorted key l ↔ x ∈ l.
Proof.
  induction l as [|y l IH]; simpl; [done|].
  by rewrite insert_sorted_elem, elem_of_cons, IH.
Qed.

(** An attribute whose declaration raises stops [generate] in the block
    of its class. *)
Lemma generate_raise fuel m overrides cs c a e :
  c ∈ cs → a ∈ ownedAttribute (deref m c) →
  class_override_for overrides (name (deref m c)) = None →
  (variable_of fuel m overrides c a).2 = Raise e →
  ∃ e', (generate fuel m overrides cs).2 = Raise e'.
Proof.
  intros Hc Ha Hov He.
  assert (∃ e1, (variables fuel m overrides c).2 = Raise e1) as [e1 Hv].
  { destruct (for_each_raise
                (sorted (λ a, default "" (pname a)) (ownedAttribute (deref m c)))
                (variable_of fuel m overrides c) a e) as [e1 H1];
      [by apply sorted_elem|done|].
    exists e1. unfold variables. by apply bind_raise. }
  assert (∃ e2, (declaration_block fuel m overrides c).2 = Raise e2)
    as [e2 Hd].
  { unfold declaration_block. rewrite Hov.
    destruct (class_declaration m c) as [decl|e0] eqn:Hcd.
    - exists e1. apply bind_raise.
      rewrite (bind_result (lift (Ok decl)) _ decl) by done.
      rewrite (bind_result (emit decl) _ tt) by done.
      apply bind_raise. unfold collect. simpl. by rewrite Hv.
    - exists e0. by apply bind_raise. }
  destruct (for_each_raise cs (declaration_block fuel m overrides) c e2)
    as [e3 H3]; [done|done|].
  exists e3. unfold generate.
  rewrite (bind_result (emit header) _ tt) by done. by apply bind_raise.
Qed.

(** ** C5: the default value of a plain scalar attribute *)

(** In [model_switch], once linked, the Boolean attribute [on] has the
    scalar type "int" and the default "true"; the default is emitted as
    "True", not as it stands.  And with a class-level override for
    [Switch] the run completes, although the attribute [since] has a
    default and a scalar type without a rendering rule. *)
Lemma default_not_as_is :
  let m := load_model model_switch in
  let a := scalar_with_default "on" (Some "int") "true" in
  nth 0 (ownedAttribute (deref m 0)) a = a ∧
  default_value (name (deref m 0)) a = Ok ", default=True" ∧
  variable_of 2 m None 0 a
  = ([Line ("on: _attribute[int] = _attribute(" +:+ dq +:+ "on" +:+ dq
            +:+ ", int, default=True)")], Ok tt) ∧
  ", default=True" ≠ ", default=" +:+ "true" ∧
  (coder 2 model_switch (Some overrides_switch)).2 = Ok tt.
Proof. by repeat split. Qed.

(** C5, as amended.  For an attribute that reaches the plain scalar rule:
    without a declared default the declaration carries no default and
    nothing is raised; with a declared default [d], the textual type
    emits [d] in quotes, the integer/boolean type emits [d] in title case
    (for ASCII [d]: a letter that follows a letter lowered, any other
    letter raised), and any other scalar type raises [ValueError], which
    stops the generation of any class list that holds the class, unless
    the class has a class-level override. *)
Theorem plain_scalar_default (fuel : nat) (m : Model)
    (overrides : option Overrides) (c : ClassId) (a : Property) :
  plain_scalar m overrides c a →
  (truthy (defaultValue a) = false →
     variable_of fuel m overrides c a = ([Line (scalar_line a "")], Ok tt)) ∧
  (∀ d, defaultValue a = Some d → d ≠ "" →
     (typeValue a = Some "str" →
        variable_of fuel m overrides c a
        = ([Line (scalar_line a (", default=" +:+ dq +:+ d +:+ dq))], Ok tt)) ∧
     (typeValue a = Some "int" → is_ascii d = true →
        variable_of fuel m overrides c a
        = ([Line (scalar_line a (", default=" +:+ title d))], Ok tt)) ∧
     (typeValue a ≠ Some "str" → typeValue a ≠ Some "int" →
        (∃ msg, variable_of fuel m overrides c a = ([], Raise (ValueError msg))) ∧
        ∀ cs, c ∈ cs → a ∈ ownedAttribute (deref m c) →
          class_override_for overrides (name (deref m c)) = None →
          ∃ e, (generate fuel m overrides cs).2 = Raise e)).
Proof.
  intros (Hov & Hassoc & Hder & Henum).
  assert (variable_of fuel m overrides c a
          = (dv <- lift (default_value (name (deref m c)) a) ;;
             emit (scalar_line a dv))) as Hrule.
  { unfold variable_of. by rewrite Hov, Hassoc, Hder, Henum. }
  split; [|intros d Hd Hne; split; [|split]].
  - intros Hno. rewrite Hrule. unfold default_value. by rewrite Hno.
  - intros Htv. rewrite Hrule. unfold default_value. rewrite Hd, Htv.
    by destruct d.
  - intros Htv _. rewrite Hrule. unfold default_value. rewrite Hd, Htv.
    by destruct d.
  - intros Hstr Hint.
    assert (∃ msg, variable_of fuel m overrides c a
                   = ([], Raise (ValueError msg))) as [msg Hraise].
    { rewrite Hrule. unfold default_value. rewrite Hd.
      rewrite !bool_decide_eq_false_2 by done.
      destruct d; [done|]. by eexists. }
    split; [by exists msg|].
    intros cs Hc Ha Hcov.
    eapply generate_raise; [done|done|done|]. by rewrite Hraise.
Qed.

Lemma plain_scalar_default_witness :
  let m := load_model model_switch in
  let a := scalar_with_default "since" (Some "Date") "today" in
  (∃ msg, variable_of 2 m None 0 a = ([], Raise (ValueError msg))) ∧
  ∃ e, (generate 2 m None [0]).2 = Raise e.
Proof.
  intros m a.
  destruct (plain_scalar_default 2 m None 0 a) as [_ H].
  { by repeat split. }
  destruct (H "today") as (_ & _ & Hother); [done|done|].
  destruct Hother as [Hmsg Hgen]; [done|done|].
  split; [exact Hmsg|].
  apply Hgen; [by left| |done].
  apply elem_of_cons. right. apply elem_of_cons. right. by left.
Defined.

(** ** C2: what an override replaces *)

(** With the keys "Owner.children" and "Owner.update" in the table, the
    declarations of [children] and [update] in the block of [Owner] are
    the member's name, a colon and the type annotation of the entry,
    indented; neither is the literal text of its entry. *)
Lemma override_declaration_not_literal :
  has_override overrides_children "Owner.children" = true ∧
  has_override overrides_children "Owner.update" = true ∧
  declaration_block 2 model_owner (Some overrides_children) 0
  = ([ Line "class Owner():";
       Line "    children: relation_many[Child]";
       Line "    update: Callable[[Owner], None]";
       Line ""; Line "" ], Ok tt) ∧
  (Line (get_override overrides_children "Owner.children")
     ∉ (declaration_block 2 model_owner (Some overrides_children) 0).1) ∧
  (Line (get_override overrides_children "Owner.update")
     ∉ (declaration_block 2 model_owner (Some overrides_children) 0).1).
Proof.
  split; [reflexivity|]. split; [reflexivity|]. split; [reflexivity|].
  split; vm_compute; intros H;
    repeat (apply elem_of_cons in H as [H|H]; [discriminate H|]);
    by apply elem_of_nil in H.
Qed.

(** C2, as amended.  With an override table [o]:
    - a class whose name is a key has as its declaration block the
      literal text of the entry, followed by the two blank lines;
    - an attribute or operation whose qualified name is a key is declared
      in [variables] as its name, a colon and the type annotation of the
      entry, whatever the classification rules would produce;
    - in the operation section an operation whose qualified name is a key
      yields the literal text of the entry;
    - in the association section an attribute whose qualified name is a
      key yields the literal text of the entry and leaves the buffer of
      redefinitions as it is. *)
Theorem override_precedence (fuel : nat) (m : Model) (o : Overrides)
    (c : ClassId) :
  (∀ n, name (deref m c) = Some n → has_override o n = true →
     declaration_block fuel m (Some o) c
     = ([Line (get_override o n); Line ""; Line ""], Ok tt)) ∧
  (∀ a, has_override o (full_name_of m c (pname a)) = true →
     variable_of fuel m (Some o) c a
     = ([Line (fmt (pname a) +:+ ": "
               +:+ get_type o (full_name_of m c (pname a)))], Ok tt) ∧
     ∀ redefinitions,
       association_of fuel m (Some o) c redefinitions a
       = ([Line (get_override o (full_name_of m c (pname a)))],
          Ok redefinitions)) ∧
  (∀ op, has_override o (full_name_of m c (oname op)) = true →
     variable_of_operation m (Some o) c op
     = ([Line (fmt (oname op) +:+ ": "
               +:+ get_type o (full_name_of m c (oname op)))], Ok tt) ∧
     operation_of m (Some o) c op
     = ([Line (get_override o (full_name_of m c (oname op)))], Ok tt)).
Proof.
  split; [|split].
  - intros n Hn Ho. unfold declaration_block, class_override_for.
    rewrite Hn. simpl. by rewrite Ho.
  - intros a Ha. split; [|intros redefinitions].
    + unfold variable_of. simpl. by rewrite Ha.
    + unfold association_of. simpl. by rewrite Ha.
  - intros op Ho. split.
    + unfold variable_of_operation. simpl. by rewrite Ho.
    + unfold operation_of. simpl. by rewrite Ho.
Qed.

Lemma override_precedence_witness :
  let a := association_end "children" 1 "*" [] in
  variable_of 2 model_owner (Some overrides_children) 0 a
  = ([Line (fmt (pname a) +:+ ": "
            +:+ get_type overrides_children "Owner.children")], Ok tt) ∧
  ∀ redefinitions,
    association_of 2 model_owner (Some overrides_children) 0 redefinitions a
    = ([Line (get_override overrides_children "Owner.children")],
       Ok redefinitions).
Proof.
  apply (proj1 (proj2 (override_precedence 2 model_owner
                         overrides_children 0))
           (association_end "children" 1 "*" [])).
  reflexivity.
Defined.

(** ** Simple-attribute classes *)

Lemma any_r_total {A} (f : A → result bool) l :
  (∀ x, x ∈ l → ∃ b, f x = Ok b) → ∃ b, any_r f l = Ok b.
Proof.
  induction l as [|x l IH]; intros Hf; simpl; [by eexists|].
  destruct (Hf x) as [[] ->]; [by left|by eexists|].
  apply IH. intros y Hy. apply Hf. by right.
Qed.

Lemma any_r_true {A} (f : A → result bool) l x :
  (∀ y, y ∈ l → ∃ b, f y = Ok b) → x ∈ l → f x = Ok true →
  any_r f l = Ok true.
Proof.
  induction l as [|y l IH]; intros Hf Hx Hfx; [by apply elem_of_nil in Hx|].
  simpl. destruct (Hf y) as [[] Hy]; [by left|by rewrite Hy|].
  rewrite Hy. apply elem_of_cons in Hx as [->|Hx]; [congruence|].
  apply IH; [|done|done]. intros z Hz. apply Hf. by right.
Qed.

Lemma any_r_true_inv {A} (f : A → result bool) l :
  any_r f l = Ok true → ∃ x, x ∈ l ∧ f x = Ok true.
Proof.
  induction l as [|y l IH]; simpl; [done|].
  destruct (f y) as [[]|e] eqn:Hy; [|intros H|done].
  - intros _. exists y. split; [by left|done].
  - destruct (IH H) as (x & Hx & Hfx). exists x. split; [by right|done].
Qed.

Lemma any_r_false_inv {A} (f : A → result bool) l :
  any_r f l = Ok false → ∀ x, x ∈ l → f x = Ok false.
Proof.
  induction l as [|y l IH]; simpl; intros H x Hx;
    [by apply elem_of_nil in Hx|].
  destruct (f y) as [[]|e] eqn:Hy; [done| |done].
  apply elem_of_cons in Hx as [->|Hx]; [done|by apply IH].
Qed.

Section simple.
Context (m : Model).

Lemma marked_spec c :
  existsb (λ s, bool_decide (s = Some "SimpleAttribute"))
          (appliedStereotypes (deref m c)) = true
  ↔ Some "SimpleAttribute" ∈ appliedStereotypes (deref m c).
Proof.
  rewrite existsb_exists. split.
  - intros (s & Hs & Heq). apply bool_decide_eq_true in Heq. subst s.
    by apply list_elem_of_In.
  - intros H. exists (Some "SimpleAttribute").
    split; [by apply list_elem_of_In|by apply bool_decide_eq_true].
Qed.

Lemma is_simple_type_total fuel : ∀ c,
  shallow m fuel c = true → ∃ b, is_simple_type fuel m (Some c) = Ok b.
Proof.
  induction fuel as [|fuel IH]; intros c Hs; [done|].
  simpl. destruct (existsb _ _); [by eexists|].
  apply any_r_total. intros b Hb. apply IH. by eapply shallow_base.
Qed.

(** With enough depth the walk finds a marked class among the class and
    its bases. *)
Lemma is_simple_type_marked fuel : ∀ c,
  shallow m fuel c = true → simple_class m c →
  is_simple_type fuel m (Some c) = Ok true.
Proof.
  induction fuel as [|fuel IH]; intros c Hs (anc & Hanc & Hmark); [done|].
  simpl. destruct (existsb _ _) eqn:Hc; [done|].
  apply rtc_inv_r in Hanc as [->|(b & Hab & Hbc)].
  { apply marked_spec in Hmark. congruence. }
  apply (any_r_true _ _ b); [|exact Hbc|].
  - intros y Hy. apply is_simple_type_total. by eapply shallow_base.
  - apply IH; [by eapply shallow_base|by exists anc].
Qed.

(** What the walk finds is a marked class among the class and its
    bases. *)
Lemma is_simple_type_true fuel : ∀ c,
  is_simple_type fuel m (Some c) = Ok true → simple_class m c.
Proof.
  induction fuel as [|fuel IH]; intros c; [done|].
  simpl. destruct (existsb _ _) eqn:Hc.
  - intros _. exists c. split; [apply rtc_refl|by apply marked_spec].
  - intros (b & Hb & Hrec)%any_r_true_inv.
    destruct (IH b Hrec) as (anc & Hanc & Hmark).
    exists anc. split; [|done]. eapply rtc_r; [exact Hanc|exact Hb].
Qed.

(** A walk that ends without a find has met no marked class among the
    class and its bases. *)
Lemma is_simple_type_false fuel : ∀ c,
  is_simple_type fuel m (Some c) = Ok false → ¬ simple_class m c.
Proof.
  induction fuel as [|fuel IH]; intros c; [done|].
  simpl. destruct (existsb _ _) eqn:Hc; [done|].
  intros Hrec (anc & Hanc & Hmark).
  apply rtc_inv_r in Hanc as [->|(b & Hab & Hbc)].
  { apply marked_spec in Hmark. congruence. }
  apply (IH b (any_r_false_inv _ _ Hrec b Hbc)). by exists anc.
Qed.
End simple.

Lemma for_each_silent {A} (l : list A) (body : A → M unit) :
  (∀ x, x ∈ l → body x = ([], Ok tt)) → for_each l body = ([], Ok tt).
Proof.
  induction l as [|x l IH]; intros H; simpl; [done|].
  rewrite (H x) by (by left). unfold bind. simpl.
  rewrite IH; [done|]. intros y Hy. apply H. by right.
Qed.

(** ** C7: associations to simple-attribute classes *)

(** In [model_code], once linked, [Code] is a simple-attribute class and
    the type of both attributes of [Holder].  The attribute [code], which
    is not backed by an association, is declared with the scalar type
    [None], not [str]; and for the association end [codes], whose
    qualified name is a key of the override table, the declaration is the
    annotation of the entry and the association section holds the
    statement of the entry. *)
Lemma simple_type_not_collapsed :
  let m := load_model model_code in
  let code := set_typeValue None (set_type (Some 0) (scalar "code" None)) in
  let codes := association_end "codes" 0 "*" [] in
  ownedAttribute (deref m 1) = [code; codes] ∧
  is_simple_type 2 m (Some 0) = Ok true ∧
  variable_of 2 m None 1 code
  = ([Line ("code: _attribute[None] = _attribute(" +:+ dq +:+ "code" +:+ dq
            +:+ ", None)")], Ok tt) ∧
  variable_of 2 m None 1 code ≠ ([Line (str_line code)], Ok tt) ∧
  variable_of 2 m (Some overrides_codes) 1 codes
  = ([Line "codes: relation_many[Code]"], Ok tt) ∧
  association_of 2 m (Some overrides_codes) 1 [] codes
  = ([Line ("Holder.codes = association(" +:+ dq +:+ "codes" +:+ dq
            +:+ ", Code)")], Ok []).
Proof. by repeat split. Qed.

(** C7, as amended.  With enough recursion depth, for an attribute that
    is backed by an association, has no override for its qualified name,
    and whose type is a simple-attribute class (marked itself or through
    a base) without a cycle above it: the declaration is the plain
    string-typed scalar declaration, the first loop of [associations]
    emits and buffers nothing for it, and its slots yield no subset
    statement; whatever its multiplicity. *)
Theorem simple_type_collapses (fuel : nat) (m : Model)
    (overrides : option Overrides) (c : ClassId) (a : Property)
    (t : ClassId) :
  acyclic_above m t →
  length (classes m) < fuel →
  type a = Some t →
  simple_class m t →
  association a = true →
  override_for overrides (full_name_of m c (pname a)) = None →
  variable_of fuel m overrides c a = ([Line (str_line a)], Ok tt) ∧
  (∀ redefinitions,
     association_of fuel m overrides c redefinitions a
     = ([], Ok redefinitions)) ∧
  for_each (slot a) (subsets_of_slot fuel m c a) = ([], Ok tt).
Proof.
  intros Hac Hfuel Ht Hsimple Hassoc Hov.
  assert (is_simple_type fuel m (type a) = Ok true) as Hs.
  { rewrite Ht. apply is_simple_type_marked; [|done].
    by apply acyclic_shallow. }
  split; [|split].
  - unfold variable_of. rewrite Hov, Hassoc, Hs.
    by rewrite andb_false_r.
  - intros redefinitions. unfold association_of. by rewrite Hov, Hassoc, Hs.
  - apply for_each_silent. intros s _. unfold subsets_of_slot.
    rewrite Hs. by destruct (bool_decide _).
Qed.

Lemma simple_type_collapses_witness :
  let m := load_model model_code in
  let codes := association_end "codes" 0 "*" [] in
  variable_of 3 m None 1 codes = ([Line (str_line codes)], Ok tt) ∧
  (∀ redefinitions,
     association_of 3 m None 1 redefinitions codes = ([], Ok redefinitions)) ∧
  for_each (slot codes) (subsets_of_slot 3 m 1 codes) = ([], Ok tt).
Proof.
  intros m codes.
  apply (simple_type_collapses 3 m None 1 codes 0).
  - no_cycle m 1.
  - vm_compute. lia.
  - reflexivity.
  - exists 0. split; [apply rtc_refl|]. vm_compute. by left.
  - reflexivity.
  - reflexivity.
Defined.

(** ** The layout of the output *)

Lemma for_each_emit (l : list string) : for_each l emit = (map Line l, Ok tt).
Proof.
  induction l as [|x l IH]; simpl; [done|].
  unfold bind. simpl. by rewrite IH.
Qed.

(** A run of [generate] that completes leaves the header, the
    declaration blocks, the operation overrides, a blank line and the
    association statements, class by class in the order of the list. *)
Lemma generate_ok fuel m overrides cs :
  (generate fuel m overrides cs).2 = Ok tt →
  (generate fuel m overrides cs).1
  = Line header
    :: concat (map (λ c, (declaration_block fuel m overrides c).1) cs)
    ++ concat (map (λ c, (operations m overrides c).1) cs)
    ++ Line ""
    :: concat (map (λ c, (associations fuel m overrides c).1) cs) ∧
  ∀ c, c ∈ cs →
    (declaration_block fuel m overrides c).2 = Ok tt ∧
    (operations m overrides c).2 = Ok tt ∧
    (associations fuel m overrides c).2 = Ok tt.
Proof.
  unfold generate. intros H.
  apply bind_ok in H as ([] & _ & H & ->).
  apply bind_ok in H as ([] & Hd & H & ->).
  apply bind_ok in H as ([] & Ho & H & ->).
  apply bind_ok in H as ([] & _ & Ha & ->).
  destruct (for_each_ok _ _ Hd) as [-> Hd'].
  destruct (for_each_ok _ _ Ho) as [-> Ho'].
  destruct (for_each_ok _ _ Ha) as [-> Ha'].
  split; [done|]. intros c Hc. by rewrite Hd', Ho', Ha'.
Qed.

(** [coder] is [generate] on the list the orderer returns. *)
Lemma coder_generate fuel stored overrides cs :
  order_classes fuel (load_model stored)
    (filtered (in_generation_set fuel (load_model stored))
              (select_classes (load_model stored))) = Ok cs →
  coder fuel stored overrides = generate fuel (load_model stored) overrides cs.
Proof.
  intros H. unfold coder. cbv zeta. rewrite H. unfold bind, lift.
  cbn [fst snd app]. by destruct (generate _ _ _ _).
Qed.

(** The first loop of [associations] treats an attribute in the same way
    whatever the buffer holds, and appends to the buffer. *)
Lemma association_of_buffer fuel m overrides c redefinitions a :
  association_of fuel m overrides c redefinitions a
  = ((association_of fuel m overrides c [] a).1,
     match (association_of fuel m overrides c [] a).2 with
     | Ok r => Ok (redefinitions ++ r)
     | Raise e => Raise e
     end).
Proof.
  unfold association_of.
  destruct (override_for _ _); simpl; [by rewrite app_nil_r|].
  destruct (association a); simpl; [|by rewrite app_nil_r].
  destruct (is_simple_type fuel m (type a)) as [[]|e]; simpl;
    [by rewrite app_nil_r| |done].
  destruct (type_name m (type a)) as [tn|e]; simpl; [|done].
  destruct (truthy (redefines a)); simpl; [done|].
  destruct (isDerived a); simpl; by rewrite app_nil_r.
Qed.

Lemma association_of_round fuel m overrides c a t r :
  association_of fuel m overrides c [] a = (t, Ok r) →
  first_loop_round fuel m overrides c a (t, r).
Proof.
  intros H. split; [done|]. revert H.
  unfold first_loop_round, redefining, association_of. cbn [fst snd].
  destruct (override_for _ _) as [o|]; simpl.
  { intros [= <- <-]. split; [by intros ? (? & _)|]. split; [done|].
    right. by eexists. }
  destruct (association a); simpl; cycle 1.
  { intros [= <- <-]. split; [by intros ? (_ & ? & _)|]. split; [done|].
    by left. }
  destruct (type a) as [ty|] eqn:Hty; [|by destruct fuel].
  destruct (is_simple_type fuel m (Some ty)) as [[]|e] eqn:Hsimple; simpl;
    [| |done].
  { intros [= <- <-]. split; [|split; [done|by left]].
    intros ? (_ & _ & [= <-] & Hplain & _). exfalso. apply Hplain.
    by eapply is_simple_type_true. }
  apply is_simple_type_false in Hsimple.
  destruct (truthy (redefines a)) eqn:Hred; simpl.
  { intros [= <- <-]. split; [by intros ? (_ & _ & [= <-] & _)|].
    split; [|by left]. intros _. by exists ty. }
  destruct (isDerived a); simpl; intros [= <- <-];
    (split; [by intros ? (_ & _ & _ & _ & ?)|]); (split; [done|]);
    right; by eexists.
Qed.

Lemma first_loop_ok fuel m overrides c attrs : ∀ redefinitions buffered,
  (for_each_with attrs redefinitions (association_of fuel m overrides c)).2
  = Ok buffered →
  ∃ rounds,
    Forall2 (first_loop_round fuel m overrides c) attrs rounds ∧
    (for_each_with attrs redefinitions (association_of fuel m overrides c)).1
    = concat (map fst rounds) ∧
    buffered = redefinitions ++ concat (map snd rounds).
Proof.
  induction attrs as [|a attrs IH]; intros redefinitions buffered H.
  - simpl in H. injection H as <-. exists []. split; [constructor|].
    split; [done|]. simpl. by rewrite app_nil_r.
  - simpl in H. apply bind_ok in H as (s & Ha & Hrest & Htrace).
    simpl. rewrite Htrace.
    rewrite association_of_buffer in Ha. simpl in Ha.
    destruct (association_of fuel m overrides c [] a) as [t [r|e]] eqn:Hround;
      simpl in Ha; [|done].
    injection Ha as <-.
    destruct (IH _ _ Hrest) as (rounds & Hall & -> & ->).
    exists ((t, r) :: rounds). split; [|split].
    + constructor; [by apply association_of_round|done].
    + rewrite association_of_buffer, Hround. done.
    + simpl. by rewrite app_assoc.
Qed.

(** ** C8: the order of the association statements *)

(** [Owner] of [model_wiring] declares [zeta] before [alpha], and its
    statements come out in that order, not in the order of the names; and
    the buffered redefinition of [narrowed] is followed by a subset
    statement. *)
Lemma association_statements_in_declared_order :
  let zeta := Line ("Owner.zeta = association(" +:+ quoted "zeta"
                    +:+ ", Child)") in
  let alpha := Line ("Owner.alpha = association(" +:+ quoted "alpha"
                     +:+ ", Child)") in
  let union := Line ("Owner.union = derivedunion(" +:+ quoted "union"
                     +:+ ", Child)") in
  let narrowed := Line ("Owner.narrowed = redefine(Owner, "
                        +:+ quoted "narrowed" +:+ ", Child, zeta)") in
  let added := Line "Owner.union.add(Owner.narrowed)" in
  associations 3 model_wiring None 0
  = ([zeta; alpha; union; narrowed; added], Ok tt) ∧
  String.ltb "alpha" "zeta" = true ∧
  before zeta alpha (associations 3 model_wiring None 0).1 ∧
  before narrowed added (associations 3 model_wiring None 0).1.
Proof.
  split; [reflexivity|]. split; [reflexivity|]. split.
  - exists 0, 1. by repeat split; [..|lia].
  - exists 3, 4. by repeat split; [..|lia].
Qed.

(** C8, as amended.  In a run that completes, the association section is
    the end of the output, after a blank line, and holds the statements
    of the classes in class order.  The statements of one class are: for
    each owned attribute in the order of [ownedAttribute] (not of the
    names) the line the first loop yields for it at once, which is an
    override, derived-union or plain association statement, or nothing;
    then the buffered statements, in the same order; then the subset
    statements.  A redefining attribute yields nothing at once and
    buffers its redefinition statement, and only a redefining attribute
    buffers anything: the redefinition statements of a class come after
    every statement of its first loop and before its subset
    statements. *)
Theorem association_section_layout (fuel : nat) (m : Model)
    (overrides : option Overrides) (cs : list ClassId) :
  (generate fuel m overrides cs).2 = Ok tt →
  (generate fuel m overrides cs).1
  = Line header
    :: concat (map (λ c, (declaration_block fuel m overrides c).1) cs)
    ++ concat (map (λ c, (operations m overrides c).1) cs)
    ++ Line ""
    :: concat (map (λ c, (associations fuel m overrides c).1) cs) ∧
  ∀ c, c ∈ cs →
    ∃ rounds,
      Forall2 (first_loop_round fuel m overrides c)
              (ownedAttribute (deref m c)) rounds ∧
      (associations fuel m overrides c).1
      = concat (map fst rounds)
        ++ map Line (concat (map snd rounds))
        ++ (subset_statements fuel m c).1.
Proof.
  intros H. destruct (generate_ok _ _ _ _ H) as [Htrace Hall].
  split; [done|]. intros c Hc.
  destruct (Hall c Hc) as (_ & _ & Ha).
  unfold associations in *.
  apply bind_ok in Ha as (buffered & Hloop & Hrest & ->).
  apply bind_ok in Hrest as ([] & _ & _ & ->).
  destruct (first_loop_ok _ _ _ _ _ _ _ Hloop) as (rounds & Hrounds & -> & ->).
  exists rounds. split; [done|]. by rewrite for_each_emit.
Qed.

Lemma association_section_layout_witness :
  ∃ rounds,
    Forall2 (first_loop_round 3 model_wiring None 0)
            (ownedAttribute (deref model_wiring 0)) rounds ∧
    (associations 3 model_wiring None 0).1
    = concat (map fst rounds)
      ++ map Line (concat (map snd rounds))
      ++ (subset_statements 3 model_wiring 0).1.
Proof.
  apply (proj2 (association_section_layout 3 model_wiring None [0; 1]
                  eq_refl) 0).
  by left.
Defined.

(** ** Resolving an attribute by name *)




Section resolution.
Context (m : Model) (nm : string).




End resolution.


(** ** C9: subset statements *)




(** ** C10: a class-level override and the later sections *)

Lemma for_each_ext {A} (l : list A) (body body' : A → M unit) :
  (∀ x, x ∈ l → body x = body' x) → for_each l body = for_each l body'.
Proof.
  induction l as [|x l IH]; intros H; simpl; [done|].
  rewrite (H x) by (by left). rewrite IH; [done|].
  intros y Hy. apply H. by right.
Qed.

Lemma for_each_with_ext {A S} (l : list A) (body body' : S → A → M S) :
  (∀ s x, x ∈ l → body s x = body' s x) →
  ∀ s, for_each_with l s body = for_each_with l s body'.
Proof.
  induction l as [|x l IH]; intros H s; simpl; [done|].
  rewrite (H s x) by (by left). unfold bind.
  destruct (body' s x) as [t [s'|e]]; simpl; [|done].
  rewrite IH; [done|]. intros s0 y Hy. apply H. by right.
Qed.




(** * Further properties *)

(** ** The class orderer: what it emits, replays and refuses *)

Section orderer_more.
Context (m : Model).

Lemma base_closed_rtc s x c :
  base_closed m s → rtc (is_base m) x c → c ∈ s → x ∈ s.
Proof.
  intros Hcl Hr. induction Hr as [|x y c Hxy _ IH]; [done|].
  intros Hc. eapply Hcl; [by apply IH|done].
Qed.

Lemma ordered_state_closed st : ordered_state m st → base_closed m st.2.
Proof.
  intros (_ & -> & Hcl) x Hx b Hb.
  apply elem_of_list_to_set in Hx. apply elem_of_list_to_set.
  apply list_elem_of_lookup in Hx as [j Hj].
  destruct (Hcl j x Hj b Hb) as (i & _ & Hi).
  by eapply list_elem_of_lookup_2.
Qed.

(** A visit that returns leaves the seen set closed under bases and free
    of cycles, if it found it so; this needs no assumption on the
    graph. *)
Lemma visit_all_closed visit cs :
  (∀ c st st', base_closed m st.2 → (∀ x, x ∈ st.2 → ¬ tc (is_base m) x x) →
     visit c st = Ok st' →
     base_closed m st'.2 ∧ (∀ x, x ∈ st'.2 → ¬ tc (is_base m) x x) ∧
     c ∈ st'.2 ∧ st.2 ⊆ st'.2) →
  ∀ st st', base_closed m st.2 → (∀ x, x ∈ st.2 → ¬ tc (is_base m) x x) →
    visit_all visit cs st = Ok st' →
    base_closed m st'.2 ∧ (∀ x, x ∈ st'.2 → ¬ tc (is_base m) x x) ∧
    (∀ c, c ∈ cs → c ∈ st'.2) ∧ st.2 ⊆ st'.2.
Proof.
  intros Hvisit. induction cs as [|c cs IH]; intros st st' Hcl Hfree Hrun.
  - simpl in Hrun. injection Hrun as <-. repeat split; try done.
    intros c Hc. by apply elem_of_nil in Hc.
  - simpl in Hrun. destruct (visit c st) as [st1|e] eqn:Hc; [|done].
    simpl in Hrun.
    destruct (Hvisit _ _ _ Hcl Hfree Hc) as (Hcl1 & Hfree1 & Hc1 & Hsub1).
    destruct (IH _ _ Hcl1 Hfree1 Hrun) as (Hcl' & Hfree' & Hin & Hsub).
    repeat split; try done.
    + intros c' [->|Hc']%elem_of_cons; [by apply Hsub|by apply Hin].
    + by etrans.
Qed.

Lemma order_closed fuel : ∀ c st st',
  base_closed m st.2 → (∀ x, x ∈ st.2 → ¬ tc (is_base m) x x) →
  order fuel m c st = Ok st' →
  base_closed m st'.2 ∧ (∀ x, x ∈ st'.2 → ¬ tc (is_base m) x x) ∧
  c ∈ st'.2 ∧ st.2 ⊆ st'.2.
Proof.
  induction fuel as [|fuel IH]; intros c st st' Hcl Hfree Hrun; [done|].
  simpl in Hrun. destruct (decide (c ∈ st.2)) as [Hseen|Hnew].
  - injection Hrun as <-. by repeat split.
  - destruct (visit_all (order fuel m) (bases m c) st) as [st1|e] eqn:Hb;
      [|done].
    simpl in Hrun. injection Hrun as <-. simpl.
    destruct (visit_all_closed _ _ IH _ _ Hcl Hfree Hb)
      as (Hcl1 & Hfree1 & Hin1 & Hsub1).
    assert (base_closed m ({[c]} ∪ st1.2)) as Hcl'.
    { intros x [->%elem_of_singleton|Hx]%elem_of_union b Hb'.
      - apply elem_of_union. right. by apply Hin1.
      - apply elem_of_union. right. by eapply Hcl1. }
    repeat split; [done| | |].
    + intros x [->%elem_of_singleton|Hx]%elem_of_union; [|by apply Hfree1].
      intros Hcyc. destruct (tc_last m _ _ Hcyc) as (z & Hcz & Hzc).
      apply (Hfree1 c); [|done].
      eapply base_closed_rtc; [exact Hcl1|exact Hcz|by apply Hin1].
    + apply elem_of_union. left. by apply elem_of_singleton.
    + intros x Hx. apply elem_of_union. right. by apply Hsub1.
Qed.

(** The orderer raises nothing but [RecursionError]. *)
Lemma order_raises fuel : ∀ c st e,
  order fuel m c st = Raise e → e = RecursionError.
Proof.
  induction fuel as [|fuel IH]; intros c st e; simpl; [by intros [= <-]|].
  destruct (decide _); [done|].
  assert (∀ bs st0, visit_all (order fuel m) bs st0 = Raise e →
            e = RecursionError) as Hall.
  { induction bs as [|b bs IHbs]; intros st0; simpl; [done|].
    destruct (order fuel m b st0) as [st1|e1] eqn:Hb; simpl.
    - apply IHbs.
    - intros [= <-]. by eapply IH. }
  destruct (visit_all _ _ _) as [st1|e1] eqn:Hb; simpl; [done|].
  intros [= <-]. by eapply Hall.
Qed.

Lemma visit_all_raises fuel : ∀ cs st e,
  visit_all (order fuel m) cs st = Raise e → e = RecursionError.
Proof.
  induction cs as [|c cs IH]; intros st e; simpl; [done|].
  destruct (order fuel m c st) as [st1|e1] eqn:Hc; simpl.
  - apply IH.
  - intros [= <-]. by eapply order_raises.
Qed.

Lemma order_unseen fuel c st :
  c ∉ st.2 →
  order (S fuel) m c st
  = rbind (visit_all (order fuel m) (bases m c) st)
          (λ st', Ok (st'.1 ++ [c], {[c]} ∪ st'.2)).
Proof. intros H. simpl. by rewrite decide_False. Qed.

(** Visiting classes that are all seen changes nothing. *)
Lemma visit_all_seen fuel bs st :
  (∀ b, b ∈ bs → b ∈ st.2) →
  visit_all (order (S fuel) m) bs st = Ok st.
Proof.
  induction bs as [|b bs IH]; intros Hseen; simpl; [done|].
  rewrite decide_True by (apply Hseen; by left). simpl.
  apply IH. intros b' Hb'. apply Hseen. by right.
Qed.

(** A sequence in which the bases of every class stand before it is
    replayed as it is. *)
Lemma visit_all_replay fuel : ∀ rest done,
  NoDup (done ++ rest) →
  (∀ j x, (done ++ rest) !! j = Some x →
     ∀ b, is_base m b x → ∃ i, i < j ∧ (done ++ rest) !! i = Some b) →
  visit_all (order (S (S fuel)) m) rest (done, list_to_set done)
  = Ok (done ++ rest, list_to_set (done ++ rest)).
Proof.
  induction rest as [|x rest IH]; intros done Hnd Hcl.
  - simpl. by rewrite app_nil_r.
  - cbn [visit_all]. rewrite order_unseen; cycle 1.
    { cbn [snd]. rewrite elem_of_list_to_set. intros Hx.
      apply NoDup_app in Hnd as (_ & Hdisj & _). apply (Hdisj x Hx). by left. }
    rewrite visit_all_seen; cycle 1.
    { intros b Hb. cbn [snd]. rewrite elem_of_list_to_set.
      destruct (Hcl (length done) x) with (b := b) as (i & Hi & Hbi);
        [by rewrite list_lookup_middle|done|].
      rewrite lookup_app_l in Hbi by done. by eapply list_elem_of_lookup_2. }
    cbn [rbind fst snd].
    replace ({[x]} ∪ list_to_set done : gset ClassId)
      with (list_to_set (done ++ [x]) : gset ClassId); cycle 1.
    { rewrite list_to_set_app_L. simpl.
      rewrite (right_id_L ∅ (∪)). apply (comm_L (∪)). }
    assert (done ++ x :: rest = (done ++ [x]) ++ rest) as Heq
      by (by rewrite <- app_assoc).
    rewrite Heq in *. by apply IH.
Qed.
End orderer_more.

(** What the orderer returns: a sequence without duplicates of the input
    classes and the classes above them. *)
Lemma order_classes_reach (fuel : nat) (m : Model) (cs : list ClassId) :
  (∀ c, c ∈ cs → acyclic_above m c) →
  length (classes m) < fuel →
  ∃ out, order_classes fuel m (cs, None) = Ok out ∧ NoDup out ∧
    ∀ x, x ∈ out ↔ ∃ c, c ∈ cs ∧ rtc (is_base m) x c.
Proof.
  intros Hac Hfuel. unfold order_classes. simpl.
  destruct (visit_all_total (order fuel m) cs) with (st := (([], ∅) : ostate))
    as [st Hrun].
  { intros c st0 Hc. apply order_total. apply acyclic_shallow; [|done].
    by apply Hac. }
  rewrite Hrun. simpl. exists st.1. split; [done|].
  destruct (visit_all_spec m _ cs (order_spec m fuel) Hac _ _
              (ordered_state_init m) Hrun) as (Hst & Hin & new & Hout & Hnew).
  split; [apply Hst|].
  intros x. split.
  - intros Hx. apply Hnew. by rewrite Hout in Hx.
  - intros (c & Hc & Hr).
    pose proof (ordered_state_closed m st Hst) as Hcl.
    destruct Hst as (_ & Hs & _). rewrite Hs in Hcl.
    apply (elem_of_list_to_set (C := gset ClassId)).
    eapply base_closed_rtc; [exact Hcl|exact Hr|].
    apply elem_of_list_to_set. by apply Hin.
Qed.

(** X1.  For input classes without a cycle above them, with enough
    recursion depth, the classes of the output are the input classes and
    their direct and transitive bases, whether these are in the input or
    not, and no others. *)
Theorem order_classes_output (fuel : nat) (m : Model) (cs : list ClassId) :
  (∀ c, c ∈ cs → acyclic_above m c) →
  length (classes m) < fuel →
  ∃ out, order_classes fuel m (cs, None) = Ok out ∧
    ∀ x, x ∈ out ↔ ∃ c, c ∈ cs ∧ rtc (is_base m) x c.
Proof.
  intros Hac Hfuel.
  destruct (order_classes_reach fuel m cs Hac Hfuel) as (out & Hrun & _ & H).
  by exists out.
Qed.

Lemma order_classes_output_witness :
  ∃ out, order_classes 4 model_abc ([0], None) = Ok out ∧
    ∀ x, x ∈ out ↔ ∃ c, c ∈ [0] ∧ rtc (is_base model_abc) x c.
Proof.
  apply (order_classes_output 4 model_abc [0]).
  - intros c _. no_cycle model_abc 4.
  - vm_compute. lia.
Defined.

(** X2.  Ordering is idempotent: for input classes without a cycle above
    them, with enough recursion depth, the orderer run on its own output
    returns that output. *)
Theorem order_classes_idempotent (fuel : nat) (m : Model)
    (cs : list ClassId) :
  (∀ c, c ∈ cs → acyclic_above m c) →
  length (classes m) < fuel →
  1 < fuel →
  ∃ out, order_classes fuel m (cs, None) = Ok out ∧
    order_classes fuel m (out, None) = Ok out.
Proof.
  intros Hac Hfuel Hfuel2. unfold order_classes. simpl.
  destruct (visit_all_total (order fuel m) cs) with (st := (([], ∅) : ostate))
    as [st Hrun].
  { intros c st0 Hc. apply order_total. apply acyclic_shallow; [|done].
    by apply Hac. }
  rewrite Hrun. simpl. exists st.1. split; [done|].
  destruct (visit_all_spec m _ cs (order_spec m fuel) Hac _ _
              (ordered_state_init m) Hrun) as ((Hnd & _ & Hcl) & _).
  destruct fuel as [|[|fuel]]; [lia|lia|].
  change (∅ : gset ClassId) with (list_to_set (@nil ClassId) : gset ClassId).
  by rewrite (visit_all_replay m fuel st.1 []).
Qed.

Lemma order_classes_idempotent_witness :
  ∃ out, order_classes 4 model_abc ([0; 1; 2], None) = Ok out ∧
    order_classes 4 model_abc (out, None) = Ok out.
Proof.
  apply (order_classes_idempotent 4 model_abc [0; 1; 2]).
  - intros c _. no_cycle model_abc 4.
  - vm_compute. lia.
  - lia.
Defined.

(** X3.  When an input class, or one of its direct or transitive bases,
    is a base of itself, the orderer raises [RecursionError] at every
    recursion depth: it never returns a sequence. *)
Theorem order_classes_cycle (fuel : nat) (m : Model) (cs : list ClassId)
    (c x : ClassId) :
  c ∈ cs →
  rtc (is_base m) x c →
  tc (is_base m) x x →
  order_classes fuel m (cs, None) = Raise RecursionError.
Proof.
  intros Hc Hxc Hcyc. unfold order_classes. simpl.
  destruct (visit_all (order fuel m) cs ([], ∅)) as [st|e] eqn:Hrun; simpl.
  - exfalso.
    destruct (visit_all_closed m (order fuel m) cs (order_closed m fuel)
                ([], ∅) st) as (Hcl & Hfree & Hin & _); [| |done|].
    + intros y Hy. simpl in Hy. by apply not_elem_of_empty in Hy.
    + intros y Hy. simpl in Hy. by apply not_elem_of_empty in Hy.
    + apply (Hfree x); [|done].
      eapply base_closed_rtc; [exact Hcl|exact Hxc|by apply Hin].
  - f_equal. by eapply visit_all_raises.
Qed.

Lemma order_classes_cycle_witness :
  order_classes 1000 model_cycle ([0], None) = Raise RecursionError.
Proof.
  apply (order_classes_cycle 1000 model_cycle [0] 0 0).
  - by left.
  - apply rtc_refl.
  - apply (tc_l _ 0 1 0); [|apply tc_once]; unfold is_base; simpl; by left.
Defined.

(** ** The type linker: what it leaves alone *)

Section linker_more.
Context (m : Model).

Lemma deref_linked c :
  deref (last_minute_updates m) c
  = set_ownedAttribute (map (link_property m) (ownedAttribute (deref m c)))
                       (deref m c).
Proof.
  unfold deref, last_minute_updates. simpl.
  change empty_class
    with ((λ c, set_ownedAttribute
                  (map (link_property m) (ownedAttribute c)) c) empty_class)
    at 1.
  by rewrite map_nth.
Qed.

Lemma bases_linked c : bases (last_minute_updates m) c = bases m c.
Proof. unfold bases. by rewrite deref_linked. Qed.

Lemma visit_all_ext visit visit' cs :
  (∀ c st, visit c st = visit' c st) →
  ∀ st, visit_all visit cs st = visit_all visit' cs st.
Proof.
  intros H. induction cs as [|c cs IH]; intros st; simpl; [done|].
  rewrite H. destruct (visit' c st); simpl; [apply IH|done].
Qed.

Lemma order_linked fuel : ∀ c st,
  order fuel (last_minute_updates m) c st = order fuel m c st.
Proof.
  induction fuel as [|fuel IH]; intros c st; simpl; [done|].
  destruct (decide _); [done|].
  by rewrite bases_linked, (visit_all_ext _ _ _ IH).
Qed.

Lemma any_r_ext {A} (f g : A → result bool) l :
  (∀ x, f x = g x) → any_r f l = any_r g l.
Proof.
  intros H. induction l as [|x l IH]; simpl; [done|]. by rewrite H, IH.
Qed.

Lemma is_simple_type_linked fuel : ∀ c,
  is_simple_type fuel (last_minute_updates m) c = is_simple_type fuel m c.
Proof.
  induction fuel as [|fuel IH]; intros [c|]; simpl; try done.
  rewrite deref_linked. simpl.
  destruct (existsb _ _); [done|]. apply any_r_ext. intros g. apply IH.
Qed.
End linker_more.

(** X4.  After the pass no property of the model has the placeholder
    "String", "Integer" or "Boolean". *)
Theorem linked_no_well_known (m : Model) :
  Forall (λ p, ¬ well_known (typeValue p))
         (properties (last_minute_updates m)).
Proof.
  rewrite properties_linked. apply List.Forall_map, Forall_forall.
  intros p _. unfold well_known.
  destruct (link_property_cases m p)
    as [[_ ->]|[[_ ->]|[(_ & c & _ & ->)|(Hn & _ & ->)]]]; simpl;
    [intros [[=]|[[=]|[=]]]..|exact Hn].
Qed.

(** X5.  The pass changes neither which classes the filter of [coder]
    lets through nor how the orderer orders them: the selection, the test
    of the filter and the orderer give on the linked model what they give
    on the model as loaded. *)
Theorem linking_keeps_class_list (fuel : nat) (m : Model) :
  select_classes (last_minute_updates m) = select_classes m ∧
  (∀ c, in_generation_set fuel (last_minute_updates m) c
        = in_generation_set fuel m c) ∧
  (∀ cs, order_classes fuel (last_minute_updates m) cs
         = order_classes fuel m cs).
Proof.
  split; [|split].
  - unfold select_classes, last_minute_updates. simpl.
    by rewrite length_map.
  - intros c. unfold in_generation_set, is_enumeration, is_in_profile.
    by rewrite is_simple_type_linked, deref_linked.
  - intros cs. unfold order_classes.
    by rewrite (visit_all_ext _ _ _ (order_linked m fuel)).
Qed.

(** X6.  A placeholder that is not well-known and is the name of a class
    (for a property without placeholder: when the model has a class
    without name) is resolved to the first class of that name in
    selection order; that class becomes the type of the property, in
    place of the type it had, the placeholder is cleared, and nothing
    else of the property changes. *)
Theorem link_property_first_class (m : Model) (p : Property)
    (c : ClassId) :
  ¬ well_known (typeValue p) →
  class_named m (typeValue p) = Some c →
  link_property m p
  = mkProperty (pname p) (Some c) None (isDerived p) (association p)
               (upper p) (lowerValue p) (upperValue p) (aggregation p)
               (opposite p) (defaultValue p) (slot p) ∧
  c < length (classes m) ∧
  name (deref m c) = typeValue p ∧
  ∀ j, j < c → name (deref m j) ≠ typeValue p.
Proof.
  intros Hn Hc.
  destruct (link_property_cases m p)
    as [[Hs _]|[[Hib _]|[(_ & c' & Hc' & ->)|(_ & Hnone & _)]]].
  - exfalso. apply Hn. by left.
  - exfalso. apply Hn. by right.
  - rewrite Hc in Hc'. injection Hc' as <-. split; [done|].
    unfold class_named in Hc.
    destruct (list_find _ _) as [[i cl]|] eqn:Hf; [|done].
    injection Hc as <-. apply list_find_Some in Hf as (Hi & Hname & Hfirst).
    assert (i < length (classes m)) as Hlt by (by eapply lookup_lt_Some).
    split; [done|]. split.
    + unfold deref. by rewrite (nth_lookup_Some _ _ _ _ Hi).
    + intros j Hj Hjn.
      destruct (lookup_lt_is_Some_2 (classes m) j) as [cj Hcj]; [lia|].
      apply (Hfirst j cj Hcj Hj).
      unfold deref in Hjn. by rewrite (nth_lookup_Some _ _ _ _ Hcj) in Hjn.
  - congruence.
Qed.

Lemma link_property_first_class_witness :
  let content := association_end "content" 1 "*" [] in
  link_property model_units (scalar "unit" (Some "Unit"))
  = set_typeValue None (set_type (Some 1) (scalar "unit" None)) ∧
  link_property model_units content = set_type (Some 0) content.
Proof.
  intros content. split.
  - apply (link_property_first_class model_units
             (scalar "unit" (Some "Unit")) 1).
    + intros [[=]|[[=]|[=]]].
    + reflexivity.
  - apply (link_property_first_class model_units content 0).
    + intros [[=]|[[=]|[=]]].
    + reflexivity.
Defined.

(** ** The predicates on classes *)

(** X7.  Without a cycle above the class and with enough recursion depth,
    [is_simple_type] returns, and answers [True] exactly for the classes
    that have the stereotype "SimpleAttribute" themselves or through a
    direct or transitive base; so every specialization of such a class is
    one, too. *)
Theorem is_simple_type_decides (fuel : nat) (m : Model) (c : ClassId) :
  acyclic_above m c →
  length (classes m) < fuel →
  (simple_class m c → is_simple_type fuel m (Some c) = Ok true) ∧
  (¬ simple_class m c → is_simple_type fuel m (Some c) = Ok false) ∧
  (∀ b, is_base m b c → is_simple_type fuel m (Some b) = Ok true →
        is_simple_type fuel m (Some c) = Ok true).
Proof.
  intros Hac Hfuel.
  assert (shallow m fuel c = true) as Hs by (by apply acyclic_shallow).
  split; [|split].
  - by apply is_simple_type_marked.
  - intros Hn. destruct (is_simple_type_total m fuel c Hs) as [[] Hb];
      [|done].
    exfalso. apply Hn. by eapply is_simple_type_true.
  - intros b Hb Hsb. apply is_simple_type_marked; [done|].
    destruct (is_simple_type_true m fuel b Hsb) as (anc & Hanc & Hmark).
    exists anc. split; [|done]. by eapply rtc_r.
Qed.

Lemma is_simple_type_decides_witness :
  is_simple_type 4 model_reuse (Some 2) = Ok true.
Proof.
  apply (is_simple_type_decides 4 model_reuse 2).
  - no_cycle model_reuse 4.
  - vm_compute. lia.
  - exists 0. split.
    + apply (rtc_l _ 0 1 2); [unfold is_base; simpl; by left|].
      apply rtc_once. unfold is_base. simpl. by left.
    + vm_compute. by left.
Defined.

Section reassignment.
Context (m : Model) (nm : option string).

Lemma named_spec c :
  existsb (λ attr, bool_decide (pname attr = nm))
          (ownedAttribute (deref m c)) = true
  ↔ ∃ attr, attr ∈ ownedAttribute (deref m c) ∧ pname attr = nm.
Proof.
  rewrite existsb_exists. split.
  - intros (attr & Hin & Heq). exists attr.
    split; [by apply list_elem_of_In|by apply bool_decide_eq_true in Heq].
  - intros (attr & Hin & Heq). exists attr.
    split; [by apply list_elem_of_In|by apply bool_decide_eq_true].
Qed.

Lemma reassignment_test_total fuel : ∀ c,
  shallow m fuel c = true → ∃ b, reassignment_test fuel m nm c = Ok b.
Proof.
  induction fuel as [|fuel IH]; intros c Hs; [done|].
  simpl. destruct (existsb _ _); [by eexists|].
  apply any_r_total. intros b Hb. apply IH. by eapply shallow_base.
Qed.

Lemma reassignment_test_found fuel : ∀ c o attr,
  shallow m fuel c = true → rtc (is_base m) o c →
  attr ∈ ownedAttribute (deref m o) → pname attr = nm →
  reassignment_test fuel m nm c = Ok true.
Proof.
  induction fuel as [|fuel IH]; intros c o attr Hs Hoc Hattr Hname; [done|].
  simpl. destruct (existsb _ _) eqn:Hc; [done|].
  apply rtc_inv_r in Hoc as [->|(b & Hob & Hbc)].
  { assert (existsb (λ attr, bool_decide (pname attr = nm))
                    (ownedAttribute (deref m c)) = true) as Ht
      by (apply named_spec; by exists attr).
    congruence. }
  apply (any_r_true _ _ b); [|exact Hbc|].
  - intros y Hy. apply reassignment_test_total. by eapply shallow_base.
  - apply (IH b o attr); [by eapply shallow_base|done..].
Qed.

Lemma reassignment_test_true fuel : ∀ c,
  reassignment_test fuel m nm c = Ok true →
  ∃ o attr, rtc (is_base m) o c ∧
            attr ∈ ownedAttribute (deref m o) ∧ pname attr = nm.
Proof.
  induction fuel as [|fuel IH]; intros c; [done|].
  simpl. destruct (existsb _ _) eqn:Hc.
  - intros _. apply named_spec in Hc as (attr & Hin & Hname).
    exists c, attr. split; [apply rtc_refl|done].
  - intros (b & Hb & Hrec)%any_r_true_inv.
    destruct (IH b Hrec) as (o & attr & Hob & Hin & Hname).
    exists o, attr. split; [|done]. eapply rtc_r; [exact Hob|exact Hb].
Qed.
End reassignment.

(** X8.  Without a cycle above the owner and with enough recursion
    depth, [is_reassignment] returns, and answers [True] exactly when an
    attribute with the same name is owned by a direct or transitive base
    of the owner; an attribute of the owner itself does not count. *)
Theorem is_reassignment_decides (fuel : nat) (m : Model) (owner : ClassId)
    (a : Property) :
  acyclic_above m owner →
  length (classes m) < fuel →
  (reused_above m owner (pname a) →
   is_reassignment fuel m owner a = Ok true) ∧
  (¬ reused_above m owner (pname a) →
   is_reassignment fuel m owner a = Ok false).
Proof.
  intros Hac Hfuel.
  assert (∀ b, is_base m b owner → shallow m fuel b = true) as Hs.
  { intros b Hb. apply acyclic_shallow; [|done].
    by eapply acyclic_above_base. }
  assert (∃ r, is_reassignment fuel m owner a = Ok r) as [r Hr].
  { apply any_r_total. intros b Hb. apply reassignment_test_total.
    by apply Hs. }
  split.
  - intros (o & attr & Ho & Hattr & Hname).
    destruct (tc_last m _ _ Ho) as (b & Hob & Hb).
    apply (any_r_true _ _ b); [|exact Hb|].
    + intros y Hy. apply reassignment_test_total. by apply Hs.
    + apply (reassignment_test_found m (pname a) fuel b o attr);
        [by apply Hs|done..].
  - intros Hn. rewrite Hr. destruct r; [|done].
    exfalso. apply Hn.
    apply any_r_true_inv in Hr as (b & Hb & Ht).
    apply reassignment_test_true in Ht as (o & attr & Hob & Hattr & Hname).
    exists o, attr. split; [|done].
    eapply tc_rtc_l; [exact Hob|by apply tc_once].
Qed.

Lemma is_reassignment_decides_witness :
  is_reassignment 4 model_reuse 2 (association_end "items" 0 "*" [])
  = Ok true ∧
  is_reassignment 4 model_reuse 0 (association_end "items" 0 "*" [])
  = Ok false.
Proof.
  split.
  - apply (is_reassignment_decides 4 model_reuse 2).
    + no_cycle model_reuse 4.
    + vm_compute. lia.
    + exists 0, (association_end "items" 0 "*" []). split; [|split].
      * apply (tc_l _ 0 1 2); [unfold is_base; simpl; by left|].
        apply tc_once. unfold is_base. simpl. by left.
      * vm_compute. by left.
      * reflexivity.
  - apply (is_reassignment_decides 4 model_reuse 0).
    + no_cycle model_reuse 4.
    + vm_compute. lia.
    + intros (o & attr & (z & _ & Hz)%tc_last & _).
      by apply elem_of_nil in Hz.
Defined.

(** X9.  [is_in_profile] fails with [AttributeError] for a class without
    owning package, and else tells whether some package of the chain of
    owning packages, at any depth, is a profile. *)
Theorem is_in_profile_chain (m : Model) (c : ClassId) :
  is_in_profile m c
  = match owningPackage (deref m c) with
    | [] => Raise AttributeError
    | chain => Ok (existsb is_profile chain)
    end.
Proof.
  unfold is_in_profile. destruct (owningPackage (deref m c)) as [|p chain];
    [done|].
  revert p. induction chain as [|q chain IH]; intros p; simpl.
  - destruct (is_profile p); [done|]. by rewrite orb_false_r.
  - destruct (is_profile p); [done|]. simpl. apply IH.
Qed.

(** X10.  [is_in_toplevel_package] fails with [AttributeError] for a
    class without owning package, and else compares the given name with
    the name of the outermost package only. *)
Theorem is_in_toplevel_package_root (m : Model) (c : ClassId)
    (package_name : string) :
  is_in_toplevel_package m c package_name
  = match last (owningPackage (deref m c)) with
    | None => Raise AttributeError
    | Some root => Ok (bool_decide (pkg_name root = Some package_name))
    end.
Proof.
  unfold is_in_toplevel_package.
  induction (owningPackage (deref m c)) as [|p chain IH]; [done|].
  destruct chain as [|q chain]; [done|].
  change (toplevel_test package_name (p :: q :: chain))
    with (toplevel_test package_name (q :: chain)).
  by rewrite IH.
Qed.

(** ** Names that end in "Kind" or "Sort" *)

Lemma string_length_app (s1 s2 : string) :
  String.length (s1 +:+ s2) = (String.length s1 + String.length s2)%nat.
Proof. induction s1 as [|ch s1 IH]; simpl; [done|]. by rewrite IH. Qed.

Lemma substring_all (s : string) : substring 0 (String.length s) s = s.
Proof. induction s as [|ch s IH]; simpl; [done|]. by rewrite IH. Qed.

Lemma substring_suffix (p suffix : string) :
  substring (String.length p) (String.length suffix) (p +:+ suffix) = suffix.
Proof. induction p as [|ch p IH]; simpl; [apply substring_all|done]. Qed.

Lemma substring_split (s : string) : ∀ i : nat,
  (i ≤ String.length s)%nat →
  s = substring 0 i s +:+ substring i (String.length s - i) s.
Proof.
  induction s as [|ch s IH]; intros i Hi; simpl in *.
  - by destruct i.
  - destruct i as [|i]; simpl.
    + by rewrite substring_all.
    + change (String ch s
              = String ch (substring 0 i s
                           +:+ substring i (String.length s - i) s)).
      f_equal. apply IH. lia.
Qed.

Lemma endswith_spec (s suffix : string) :
  endswith s suffix = true ↔ ∃ p, s = p +:+ suffix.
Proof.
  unfold endswith. rewrite andb_true_iff, Nat.leb_le, String.eqb_eq. split.
  - intros [Hle Hsub].
    exists (substring 0 (String.length s - String.length suffix) s).
    pose proof (substring_split s (String.length s - String.length suffix))
      as Hsplit.
    replace (String.length s - (String.length s - String.length suffix))
      with (String.length suffix) in Hsplit by lia.
    rewrite Hsub in Hsplit. apply Hsplit. lia.
  - intros [p ->]. rewrite string_length_app. split; [lia|].
    replace (String.length p + String.length suffix - String.length suffix)
      with (String.length p) by lia.
    apply substring_suffix.
Qed.

(** X11.  [is_enumeration] holds of a class exactly when the class has a
    name and the name ends in "Kind" or in "Sort"; it holds of no class
    without name and not of [None]. *)
Theorem is_enumeration_suffix (m : Model) (c : ClassId) :
  (is_enumeration m (Some c) = true ↔
   ∃ n p, name (deref m c) = Some n ∧ (n = p +:+ "Kind" ∨ n = p +:+ "Sort")) ∧
  is_enumeration m None = false.
Proof.
  split; [|done]. unfold is_enumeration.
  destruct (name (deref m c)) as [n|]; cycle 1.
  { split; [done|]. by intros (n & p & [=] & _). }
  rewrite andb_true_iff, orb_true_iff, !endswith_spec. split.
  - intros [_ [[p ->]|[p ->]]]; eexists; exists p; (split; [done|]);
      [by left|by right].
  - intros (n' & p & [= <-] & Hn). split.
    + destruct Hn as [->| ->]; by destruct p.
    + destruct Hn as [->| ->]; [left|right]; by exists p.
Qed.

(** ** Sorting by name *)

Section sorting.
Context {A : Type} (key : A → string).

Lemma key_le_trans x y z : key_le key x y → key_le key y z → key_le key x z.
Proof.
  unfold key_le. intros H1 H2.
  assert (String.le (key x) (key z)) as H.
  { transitivity (key y); unfold String.le; by apply Is_true_true. }
  by apply Is_true_true in H.
Qed.

Lemma key_le_total x y : key_le key x y ∨ key_le key y x.
Proof. unfold key_le. apply String.leb_total. Qed.

Lemma insert_sorted_perm x l : insert_sorted key x l ≡ₚ x :: l.
Proof.
  induction l as [|y l IH]; simpl; [done|].
  destruct (String.leb _ _); [done|]. rewrite IH. apply Permutation_swap.
Qed.

Lemma sorted_perm l : sorted key l ≡ₚ l.
Proof.
  induction l as [|x l IH]; simpl; [done|].
  by rewrite insert_sorted_perm, IH.
Qed.

Lemma insert_sorted_sorted x l :
  StronglySorted (key_le key) l →
  StronglySorted (key_le key) (insert_sorted key x l).
Proof.
  induction l as [|y l IH]; intros Hl; simpl.
  - repeat constructor.
  - apply StronglySorted_cons in Hl as [Hy Hl].
    destruct (String.leb (key x) (key y)) eqn:Hxy.
    + apply StronglySorted_cons. split.
      * constructor; [done|].
        eapply Forall_impl; [exact Hy|]. intros z Hz.
        by eapply key_le_trans.
      * by apply StronglySorted_cons.
    + apply StronglySorted_cons. split; [|by apply IH].
      rewrite insert_sorted_perm. constructor; [|done].
      destruct (key_le_total x y) as [H|H]; [|done].
      unfold key_le in H. congruence.
Qed.

Lemma sorted_sorted l : StronglySorted (key_le key) (sorted key l).
Proof.
  induction l as [|x l IH]; simpl; [constructor|].
  by apply insert_sorted_sorted.
Qed.
End sorting.

Lemma sorted_map {A B} (f : A → B) (key : B → string) (l : list A) :
  map f (sorted (λ x, key (f x)) l) = sorted key (map f l).
Proof.
  induction l as [|x l IH]; simpl; [done|]. rewrite <- IH.
  generalize (sorted (λ x, key (f x)) l). intros s.
  induction s as [|y s IHs]; simpl; [done|].
  destruct (String.leb _ _); simpl; [done|]. by rewrite IHs.
Qed.

(** Lists with the same items have the same keys once sorted. *)
Lemma sorted_keys_unique {A} (key : A → string) (l l' : list A) :
  l ≡ₚ l' → map key (sorted key l) = map key (sorted key l').
Proof.
  intros Hp.
  rewrite !(sorted_map key (λ s, s)).
  apply (StronglySorted_unique_strong (key_le (λ s : string, s))).
  - intros s1 s2 _ _ H1 H2. by apply String.leb_antisym.
  - apply sorted_sorted.
  - apply sorted_sorted.
  - rewrite !sorted_perm. by apply Permutation_map.
Qed.

Lemma forallb_perm {A} (f : A → bool) (l l' : list A) :
  l ≡ₚ l' → forallb f l = forallb f l'.
Proof.
  induction 1 as [|x l l' _ IH|x y l|l l' l'' _ IH1 _ IH2]; simpl;
    [done|by rewrite IH| |by rewrite IH1].
  by destruct (f x), (f y).
Qed.

Lemma forallb_map {A B} (f : B → bool) (g : A → B) (l : list A) :
  forallb f (map g l) = forallb (λ x, f (g x)) l.
Proof. induction l as [|x l IH]; simpl; [done|]. by rewrite IH. Qed.

(** X12.  The declaration line of a class depends on the name of the
    class and on the names of its bases only, not on the order in which
    the generalizations list the bases. *)
Theorem class_declaration_permutation (m m' : Model) (c c' : ClassId) :
  name (deref m' c') = name (deref m c) →
  map (λ b, name (deref m' b)) (bases m' c')
  ≡ₚ map (λ b, name (deref m b)) (bases m c) →
  class_declaration m' c' = class_declaration m c.
Proof.
  intros Hname Hperm.
  assert (∀ (mo : Model) (x : ClassId),
            class_declaration mo x
            = let ns := sorted fmt (map (λ b, name (deref mo b)) (bases mo x)) in
              if forallb (λ n, bool_decide (is_Some n)) ns
              then Ok ("class " +:+ fmt (name (deref mo x)) +:+ "("
                       +:+ String.concat ", " (map fmt ns) +:+ "):")
              else Raise TypeError) as Hform.
  { intros mo x. unfold class_declaration. cbv zeta.
    rewrite <- (sorted_map (λ b, name (deref mo b)) fmt).
    by rewrite !forallb_map, !map_map. }
  rewrite !Hform. cbv zeta. rewrite Hname.
  rewrite (sorted_keys_unique fmt _ _ Hperm).
  rewrite (forallb_perm _ (sorted fmt (map _ (bases m' c')))
                          (sorted fmt (map (λ b, name (deref m b)) (bases m c))));
    [done|].
  by rewrite !sorted_perm.
Qed.

Lemma class_declaration_permutation_witness :
  class_declaration model_diamond' 2 = class_declaration model_diamond 2.
Proof.
  apply (class_declaration_permutation model_diamond model_diamond' 2 2).
  - reflexivity.
  - simpl. apply Permutation_swap.
Defined.

(** ** The operation section *)

Lemma operations_loop m o c (l : list Operation) :
  for_each l (operation_of m (Some o) c)
  = (map (λ op, Line (get_override o (full_name_of m c (oname op))))
         (List.filter (λ op, has_override o (full_name_of m c (oname op))) l),
     Ok tt).
Proof.
  induction l as [|op l IH]; simpl; [done|].
  rewrite IH. unfold operation_of, override_for.
  by destruct (has_override o _).
Qed.

(** X13.  [operations] never raises and never logs.  With a table it
    yields the literal texts of the entries of the owned operations that
    have one, in the order of the operations' names; without a table it
    yields nothing. *)
Theorem operations_lines (m : Model) (o : Overrides) (c : ClassId) :
  ∃ ops,
    ops ≡ₚ ownedOperation (deref m c) ∧
    StronglySorted (key_le (λ op, default "" (oname op))) ops ∧
    operations m (Some o) c
    = (map (λ op, Line (get_override o (full_name_of m c (oname op))))
           (List.filter
              (λ op, has_override o (full_name_of m c (oname op))) ops),
       Ok tt) ∧
    operations m None c = ([], Ok tt).
Proof.
  exists (sorted (λ op, default "" (oname op)) (ownedOperation (deref m c))).
  split; [apply sorted_perm|]. split; [apply sorted_sorted|].
  split; [apply operations_loop|].
  unfold operations. by apply for_each_silent.
Qed.

(** ** A table without entries *)

Lemma bind_ext {A B} (x : M A) (k k' : A → M B) :
  (∀ a, k a = k' a) → bind x k = bind x k'.
Proof. intros H. unfold bind. destruct x.2; [by rewrite H|done]. Qed.

Section no_entries.
Context (fuel : nat) (m : Model) (o : Overrides).
Hypothesis Hnone : ∀ key, has_override o key = false.

Lemma override_for_none key : override_for (Some o) key = None.
Proof. unfold override_for. by rewrite Hnone. Qed.

Lemma variables_none c :
  variables fuel m (Some o) c = variables fuel m None c.
Proof.
  unfold variables.
  rewrite (for_each_ext _ (variable_of fuel m (Some o) c)
             (variable_of fuel m None c)).
  - apply bind_ext. intros _. apply for_each_ext. intros op _.
    unfold variable_of_operation. by rewrite override_for_none.
  - intros a _. unfold variable_of. by rewrite override_for_none.
Qed.

Lemma associations_none c :
  associations fuel m (Some o) c = associations fuel m None c.
Proof.
  unfold associations.
  rewrite (for_each_with_ext _ (association_of fuel m (Some o) c)
             (association_of fuel m None c)); [done|].
  intros s a _. unfold association_of. by rewrite override_for_none.
Qed.

Lemma operations_none c : operations m (Some o) c = operations m None c.
Proof.
  unfold operations. apply for_each_ext. intros op _.
  unfold operation_of. by rewrite override_for_none.
Qed.

Lemma declaration_block_none c :
  declaration_block fuel m (Some o) c = declaration_block fuel m None c.
Proof.
  unfold declaration_block, class_override_for.
  destruct (name (deref m c)); [rewrite override_for_none|];
    by rewrite variables_none.
Qed.

Lemma generate_none cs :
  generate fuel m (Some o) cs = generate fuel m None cs.
Proof.
  unfold generate.
  rewrite (for_each_ext cs _ _ (λ c _, declaration_block_none c)).
  rewrite (for_each_ext cs (operations m (Some o)) _
             (λ c _, operations_none c)).
  by rewrite (for_each_ext cs (associations fuel m (Some o)) _
                (λ c _, associations_none c)).
Qed.
End no_entries.

(** X14.  A table without entries is as good as no table: [coder] writes
    and logs the same, and ends the same way. *)
Theorem coder_without_entries (fuel : nat) (stored : Model)
    (o : Overrides) :
  (∀ key, has_override o key = false) →
  coder fuel stored (Some o) = coder fuel stored None.
Proof.
  intros Hnone. unfold coder. cbv zeta.
  destruct (order_classes _ _ _) as [cs|e]; [|done].
  unfold bind, lift. cbn [fst snd]. by rewrite generate_none.
Qed.

Lemma coder_without_entries_witness :
  coder 3 model_wiring (Some overrides_none) = coder 3 model_wiring None.
Proof. apply (coder_without_entries 3 model_wiring overrides_none). done. Defined.

(** ** The declaration block *)

Lemma lines_of_app t1 t2 : lines_of (t1 ++ t2) = lines_of t1 ++ lines_of t2.
Proof. unfold lines_of. apply omap_app. Qed.

Lemma lines_of_warnings t : lines_of (warnings_of t) = [].
Proof.
  induction t as [|[s|s] t IH]; simpl; [done|done|done].
Qed.

Lemma for_each_emit_map {A} (f : A → string) (l : list A) :
  for_each l (λ x, emit (f x)) = (map (λ x, Line (f x)) l, Ok tt).
Proof.
  induction l as [|x l IH]; simpl; [done|].
  unfold bind. simpl. by rewrite IH.
Qed.

Lemma lines_of_lines (l : list string) : lines_of (map Line l) = l.
Proof. induction l as [|x l IH]; simpl; [done|]. by f_equal. Qed.

(** X15.  The block of a class without class-level override, when it
    completes, is the declaration line, at least one member line indented
    by four spaces (the line "pass" when [variables] yields nothing),
    and two blank lines: the body of a declared class is never empty. *)
Theorem declaration_block_body (fuel : nat) (m : Model)
    (overrides : option Overrides) (c : ClassId) :
  class_override_for overrides (name (deref m c)) = None →
  (declaration_block fuel m overrides c).2 = Ok tt →
  ∃ decl body,
    class_declaration m c = Ok decl ∧
    body ≠ [] ∧
    (body = ["pass"] ∨ body = lines_of (variables fuel m overrides c).1) ∧
    lines_of (declaration_block fuel m overrides c).1
    = decl :: map (λ p, "    " +:+ p) body ++ [""; ""].
Proof.
  intros Hov. unfold declaration_block. rewrite Hov. intros H.
  apply bind_ok in H as ([] & H & _ & ->).
  apply bind_ok in H as (decl & Hdecl & H & ->).
  apply bind_ok in H as ([] & _ & H & ->).
  apply bind_ok in H as (props & Hprops & H & ->).
  simpl in Hdecl. exists decl.
  unfold collect in Hprops. simpl in Hprops.
  destruct (variables fuel m overrides c) as [t [[]|e]] eqn:Hv;
    simpl in Hprops; [|done].
  injection Hprops as <-.
  unfold collect. cbn [fst snd lift emit].
  destruct (lines_of t) as [|p props] eqn:Hl.
  - exists ["pass"]. split; [done|]. split; [done|]. split; [by left|].
    rewrite !lines_of_app, lines_of_warnings. done.
  - exists (p :: props). split; [done|]. split; [done|]. split; [by right|].
    rewrite (for_each_emit_map (λ p, "    " +:+ p)).
    rewrite !lines_of_app, lines_of_warnings. cbn [fst].
    rewrite <- (map_map (λ x, "    " +:+ x) Line).
    by rewrite lines_of_lines.
Qed.

Lemma declaration_block_body_witness :
  ∃ decl body,
    class_declaration model_task 1 = Ok decl ∧
    body ≠ [] ∧
    (body = ["pass"] ∨ body = lines_of (variables 3 model_task None 1).1) ∧
    lines_of (declaration_block 3 model_task None 1).1
    = decl :: map (λ p, "    " +:+ p) body ++ [""; ""].
Proof.
  apply (declaration_block_body 3 model_task None 1); reflexivity.
Defined.

(** ** One event for each member *)

Lemma variable_of_one fuel m overrides c a :
  (variable_of fuel m overrides c a).2 = Ok tt →
  ∃ e, (variable_of fuel m overrides c a).1 = [e].
Proof.
  unfold variable_of.
  destruct (override_for _ _); [by eexists|].
  destruct (isDerived a && negb (association a)); [by eexists|].
  destruct (association a).
  - destruct (is_simple_type fuel m (type a)) as [[]|e]; simpl;
      [by eexists| |done].
    destruct (is_reassignment fuel m c a) as [re|e]; simpl; [|done].
    destruct (type_name m (type a)) as [tn|e]; simpl; [|done]. by eexists.
  - destruct (is_enumeration m (type a)).
    + destruct (match type a with Some t => _ | None => _ end); simpl;
        [done|by eexists].
    + destruct (default_value _ a) as [dv|e]; simpl; [|done]. by eexists.
Qed.

Lemma variable_of_operation_one m overrides c op :
  ∃ e, variable_of_operation m overrides c op = ([e], Ok tt).
Proof.
  unfold variable_of_operation. destruct (override_for _ _); by eexists.
Qed.

Lemma for_each_one {A} (l : list A) (body : A → M unit) :
  (∀ x, x ∈ l → (body x).2 = Ok tt → ∃ e, (body x).1 = [e]) →
  (for_each l body).2 = Ok tt →
  length (for_each l body).1 = length l.
Proof.
  intros Hone Hok. destruct (for_each_ok _ _ Hok) as [-> Hall].
  clear Hok. induction l as [|x l IH]; simpl; [done|].
  destruct (Hone x) as [e ->]; [by left|apply Hall; by left|].
  simpl. f_equal. apply IH.
  - intros y Hy. apply Hone. by right.
  - intros y Hy. apply Hall. by right.
Qed.

(** X16.  When [variables] completes, every owned attribute and every
    owned operation of the class has left exactly one event, a line or a
    warning: no member is dropped without a trace. *)
Theorem variables_one_event_each (fuel : nat) (m : Model)
    (overrides : option Overrides) (c : ClassId) :
  (variables fuel m overrides c).2 = Ok tt →
  length (variables fuel m overrides c).1
  = length (ownedAttribute (deref m c)) + length (ownedOperation (deref m c)).
Proof.
  unfold variables. intros H.
  apply bind_ok in H as ([] & Hattrs & Hops & ->).
  rewrite length_app. f_equal.
  - rewrite for_each_one; [by rewrite sorted_perm| |done].
    intros a _. apply variable_of_one.
  - rewrite for_each_one; [by rewrite sorted_perm| |done].
    intros op _ _. destruct (variable_of_operation_one m overrides c op)
      as [e ->]. by exists e.
Qed.

Lemma variables_one_event_each_witness :
  length (variables 3 model_wiring None 0).1
  = length (ownedAttribute (deref model_wiring 0))
    + length (ownedOperation (deref model_wiring 0)).
Proof.
  apply (variables_one_event_each 3 model_wiring None 0). reflexivity.
Defined.

(** X17.  For each owned attribute the first loop of [associations]
    yields one statement, or buffers one, or does neither, and logs
    nothing. *)
Theorem association_of_at_most_one (fuel : nat) (m : Model)
    (overrides : option Overrides) (c : ClassId) (a : Property)
    (t : list event) (r : list string) :
  association_of fuel m overrides c [] a = (t, Ok r) →
  (length t + length r ≤ 1)%nat ∧ ∀ e, e ∈ t → ∃ s, e = Line s.
Proof.
  unfold association_of.
  assert (∀ s, (∀ e, e ∈ [Line s] → ∃ s', e = Line s')) as Hline.
  { intros s e He%list_elem_of_singleton. by exists s. }
  assert (∀ e : event, e ∈ [] → ∃ s', e = Line s') as Hnil.
  { intros e He. by apply elem_of_nil in He. }
  assert (∀ (t0 : list event) (r0 : list string),
            (length t0 + length r0 ≤ 1)%nat →
            (∀ e, e ∈ t0 → ∃ s, e = Line s) →
            (t0, Ok r0) = (t, Ok r) →
            (length t + length r ≤ 1)%nat ∧ ∀ e, e ∈ t → ∃ s, e = Line s)
    as Hdone by (by intros t0 r0 ?? [= <- <-]).
  destruct (override_for _ _); simpl;
    [apply Hdone; [simpl; lia|apply Hline]|].
  destruct (association a); simpl; [|apply Hdone; [simpl; lia|done]].
  destruct (is_simple_type fuel m (type a)) as [[]|e]; simpl;
    [apply Hdone; [simpl; lia|done]| |done].
  destruct (type_name m (type a)) as [tn|e]; simpl; [|done].
  destruct (truthy (redefines a)); simpl;
    [apply Hdone; [simpl; lia|done]|].
  destruct (isDerived a); simpl; (apply Hdone; [simpl; lia|apply Hline]).
Qed.

Lemma association_of_at_most_one_witness :
  (length [Line ("Owner.zeta = association(" +:+ quoted "zeta"
                 +:+ ", Child)")]
   + length (@nil string) ≤ 1)%nat ∧
  ∀ e, e ∈ [Line ("Owner.zeta = association(" +:+ quoted "zeta"
                   +:+ ", Child)")] → ∃ s, e = Line s.
Proof.
  apply (association_of_at_most_one 3 model_wiring None 0
           (association_end "zeta" 1 "*" [])).
  reflexivity.
Defined.

(** ** Failures *)

(** X18.  An attribute that is not backed by an association, not derived
    and not overridden, and whose type is an enumeration class without
    owned attributes, raises [IndexError]; this stops the generation of
    any class list that holds its class, unless the class has a
    class-level override. *)
Theorem enumeration_without_literals (fuel : nat) (m : Model)
    (overrides : option Overrides) (c : ClassId) (a : Property)
    (t : ClassId) :
  override_for overrides (full_name_of m c (pname a)) = None →
  association a = false →
  isDerived a = false →
  type a = Some t →
  is_enumeration m (Some t) = true →
  ownedAttribute (deref m t) = [] →
  variable_of fuel m overrides c a = ([], Raise IndexError) ∧
  ∀ cs, c ∈ cs → a ∈ ownedAttribute (deref m c) →
    class_override_for overrides (name (deref m c)) = None →
    ∃ e, (generate fuel m overrides cs).2 = Raise e.
Proof.
  intros Hov Hassoc Hder Ht Henum Hempty.
  assert (variable_of fuel m overrides c a = ([], Raise IndexError)) as Hraise.
  { unfold variable_of. rewrite Hov, Hassoc, Hder, Ht, Henum, Hempty.
    done. }
  split; [done|]. intros cs Hc Ha Hcov.
  eapply generate_raise; [done|done|done|]. by rewrite Hraise.
Qed.

Lemma enumeration_without_literals_witness :
  let a := set_type (Some 0) (scalar "state" None) in
  variable_of 3 model_empty_enum None 1 a = ([], Raise IndexError) ∧
  ∀ cs, 1 ∈ cs → a ∈ ownedAttribute (deref model_empty_enum 1) →
    class_override_for None (name (deref model_empty_enum 1)) = None →
    ∃ e, (generate 3 model_empty_enum None cs).2 = Raise e.
Proof.
  apply (enumeration_without_literals 3 model_empty_enum None 1
           (set_type (Some 0) (scalar "state" None)) 0); reflexivity.
Defined.

(** ** The class list of [coder] *)

Lemma filtered_raise {A} (keep : A → result bool) (cs : list A) x e :
  x ∈ cs → keep x = Raise e → ∃ e', (filtered keep cs).2 = Some e'.
Proof.
  induction cs as [|y cs IH]; intros Hx He; [by apply elem_of_nil in Hx|].
  simpl. destruct (keep y) as [[]|e0] eqn:Hy; [| |by eexists].
  - apply elem_of_cons in Hx as [->|Hx]; [congruence|]. by apply IH.
  - apply elem_of_cons in Hx as [->|Hx]; [congruence|]. by apply IH.
Qed.

Lemma filtered_total {A} (keep : A → result bool) (cs : list A) :
  (∀ x, x ∈ cs → ∃ b, keep x = Ok b) →
  (filtered keep cs).2 = None ∧
  ∀ x, x ∈ (filtered keep cs).1 ↔ x ∈ cs ∧ keep x = Ok true.
Proof.
  induction cs as [|y cs IH]; intros Hk.
  - split; [done|]. intros x. simpl. rewrite elem_of_nil. tauto.
  - destruct IH as [Hnone Hin]; [intros x Hx; apply Hk; by right|].
    destruct (Hk y) as [b Hy]; [by left|]. simpl. rewrite Hy.
    destruct b; simpl.
    + split; [done|]. intros x. rewrite !elem_of_cons, Hin. split.
      * intros [->|[? ?]]; [by split; [left|]|by split; [right|]].
      * intros [[->|?] ?]; [by left|by right].
    + split; [done|]. intros x. rewrite elem_of_cons, Hin. split.
      * intros [? ?]. by split; [right|].
      * intros [[->|?] ?]; [congruence|done].
Qed.

Lemma order_classes_broken fuel m cs e :
  ∃ e', order_classes fuel m (cs, Some e) = Raise e'.
Proof.
  unfold order_classes. simpl.
  destruct (visit_all _ _ _); simpl; by eexists.
Qed.

Lemma in_profile_test_total chain :
  chain ≠ [] → ∃ b, in_profile_test chain = Ok b.
Proof.
  destruct chain as [|p chain]; [done|]. intros _. revert p.
  induction chain as [|q chain IH]; intros p; simpl.
  - destruct (is_profile p); by eexists.
  - destruct (is_profile p); [by eexists|]. apply IH.
Qed.

Lemma in_generation_set_linked fuel m c :
  in_generation_set fuel (last_minute_updates m) c
  = in_generation_set fuel m c.
Proof.
  unfold in_generation_set, is_enumeration, is_in_profile.
  by rewrite is_simple_type_linked, deref_linked.
Qed.

(** X19.  A class that is not an enumeration and not a simple-attribute
    class and has no owning package makes [coder] fail before it writes
    anything, not even the header, whatever else the model holds. *)
Theorem coder_class_without_package (fuel : nat) (stored : Model)
    (overrides : option Overrides) (c : ClassId) :
  c < length (classes stored) →
  is_enumeration stored (Some c) = false →
  ¬ simple_class stored c →
  owningPackage (deref stored c) = [] →
  ∃ e, coder fuel stored overrides = ([], Raise e).
Proof.
  intros Hc Henum Hplain Hpkg.
  assert (∃ e, in_generation_set fuel (load_model stored) c = Raise e)
    as [e He].
  { unfold load_model. rewrite in_generation_set_linked.
    unfold in_generation_set, is_in_profile. rewrite Henum, Hpkg.
    destruct (is_simple_type fuel stored (Some c)) as [[]|e] eqn:Hs; simpl;
      [|by eexists..].
    exfalso. apply Hplain. by eapply is_simple_type_true. }
  destruct (filtered_raise (in_generation_set fuel (load_model stored))
              (select_classes (load_model stored)) c e) as [e1 H1]; [|done|].
  { unfold select_classes, load_model, last_minute_updates. simpl.
    rewrite length_map. apply elem_of_seq. lia. }
  unfold coder. cbv zeta.
  destruct (filtered _ _) as [l oe]. simpl in H1. subst oe.
  destruct (order_classes_broken fuel (load_model stored) l e1) as [e2 ->].
  by exists e2.
Qed.

Lemma coder_class_without_package_witness :
  ∃ e, coder 3 model_homeless None = ([], Raise e).
Proof.
  apply (coder_class_without_package 3 model_homeless None 1).
  - vm_compute. lia.
  - reflexivity.
  - intros (anc & Hanc & Hmark).
    apply rtc_inv_r in Hanc as [->|(b & _ & Hb)].
    + vm_compute in Hmark. by apply elem_of_nil in Hmark.
    + by apply elem_of_nil in Hb.
  - reflexivity.
Defined.

(** X20.  When the filter holds every class back (in particular when the
    model has no class), [coder] writes the header and one blank line and
    nothing else. *)
Theorem coder_nothing_selected (fuel : nat) (stored : Model)
    (overrides : option Overrides) :
  (∀ c, c < length (classes stored) →
        in_generation_set fuel (load_model stored) c = Ok false) →
  coder fuel stored overrides = ([Line header; Line ""], Ok tt).
Proof.
  intros Hnone. unfold coder. cbv zeta.
  assert (∀ cs, (∀ c, c ∈ cs → c < length (classes stored)) →
            filtered (in_generation_set fuel (load_model stored)) cs
            = ([], None)) as Hf.
  { induction cs as [|c cs IH]; intros Hcs; simpl; [done|].
    rewrite Hnone by (apply Hcs; by left).
    apply IH. intros c' Hc'. apply Hcs. by right. }
  rewrite Hf; [done|].
  intros c Hc. unfold select_classes, load_model, last_minute_updates in Hc.
  simpl in Hc. rewrite length_map in Hc. apply elem_of_seq in Hc. lia.
Qed.

Lemma coder_nothing_selected_witness :
  coder 0 (mkModel [] [scalar "lost" (Some "String")]) None
  = ([Line header; Line ""], Ok tt).
Proof.
  apply (coder_nothing_selected 0 (mkModel [] [scalar "lost" (Some "String")])
           None).
  intros c Hc. simpl in Hc. lia.
Defined.

(** X21.  In a model (as linked) without cycle in which every class has
    an owning package, with enough recursion depth, [coder] generates for
    a list of classes without duplicates that holds exactly the classes
    the filter lets through and their direct and transitive bases; a base
    that the filter holds back is declared all the same. *)
Theorem coder_class_list (fuel : nat) (stored : Model)
    (overrides : option Overrides) :
  acyclic (load_model stored) →
  length (classes (load_model stored)) < fuel →
  (∀ c, c < length (classes (load_model stored)) →
        owningPackage (deref (load_model stored) c) ≠ []) →
  ∃ cs,
    coder fuel stored overrides
    = generate fuel (load_model stored) overrides cs ∧
    NoDup cs ∧
    ∀ x, x ∈ cs ↔
      ∃ c, c < length (classes (load_model stored)) ∧
           in_generation_set fuel (load_model stored) c = Ok true ∧
           rtc (is_base (load_model stored)) x c.
Proof.
  set (m := load_model stored). intros Hac Hfuel Hpkg.
  assert (∀ c, c ∈ select_classes m → ∃ b, in_generation_set fuel m c = Ok b)
    as Htotal.
  { intros c Hc. apply elem_of_seq in Hc. unfold in_generation_set.
    destruct (is_enumeration m (Some c)); [by eexists|].
    destruct (is_simple_type_total m fuel c) as [[] ->]; simpl;
      [apply acyclic_shallow; [by apply acyclic_acyclic_above|done]
      |by eexists|].
    destruct (in_profile_test_total (owningPackage (deref m c))) as [b Hb];
      [apply Hpkg; lia|].
    unfold is_in_profile. rewrite Hb. simpl. by eexists. }
  destruct (filtered_total _ _ Htotal) as [Hnone Hkept].
  destruct (order_classes_reach fuel m
              (filtered (in_generation_set fuel m) (select_classes m)).1)
    as (cs & Hrun & Hnd & Hcs); [|done|].
  { intros c _. by apply acyclic_acyclic_above. }
  exists cs. split; [|split; [done|]].
  - apply coder_generate. fold m.
    destruct (filtered _ _) as [l oe]. simpl in *. by subst oe.
  - intros x. rewrite Hcs. split.
    + intros (c & Hc & Hr). apply Hkept in Hc as [Hc Hk].
      exists c. split; [|done]. apply elem_of_seq in Hc. lia.
    + intros (c & Hc & Hk & Hr). exists c. split; [|done].
      apply Hkept. split; [|done]. apply elem_of_seq. lia.
Qed.

Lemma coder_class_list_witness :
  ∃ cs,
    coder 3 model_kind None = generate 3 (load_model model_kind) None cs ∧
    NoDup cs ∧
    ∀ x, x ∈ cs ↔
      ∃ c, c < length (classes (load_model model_kind)) ∧
           in_generation_set 3 (load_model model_kind) c = Ok true ∧
           rtc (is_base (load_model model_kind)) x c.
Proof.
  apply (coder_class_list 3 model_kind None).
  - apply (acyclic_check (load_model model_kind) 3). vm_compute. reflexivity.
  - vm_compute. lia.
  - intros c Hc. destruct c as [|[|c]]; [done|done|]. simpl in Hc. lia.
Defined.

(** ** The order of the members in a block *)

(** Sorting is stable: the items with one key keep their order. *)
Lemma sorted_stable {A} (key : A → string) (k : string) (l : list A) :
  List.filter (λ x, String.eqb (key x) k) (sorted key l)
  = List.filter (λ x, String.eqb (key x) k) l.
Proof.
  induction l as [|x l IH]; simpl; [done|]. rewrite <- IH.
  generalize (sorted key l). intros s.
  induction s as [|y s IHs]; simpl; [done|].
  destruct (String.leb (key x) (key y)) eqn:Hxy; simpl; [done|].
  rewrite IHs.
  destruct (String.eqb (key y) k) eqn:Hy, (String.eqb (key x) k) eqn:Hx;
    try done.
  apply String.eqb_eq in Hy, Hx.
  assert (String.leb (key x) (key y) = true) as Hle.
  { rewrite Hx, Hy. destruct (String.leb_total k k); done. }
  congruence.
Qed.

(** X22.  When [variables] completes, its events are those of the owned
    attributes followed by those of the owned operations; each group is
    in the order of the names (a missing name counting as the empty
    name), and members with the same name keep the order in which the
    class owns them. *)
Theorem variables_in_name_order (fuel : nat) (m : Model)
    (overrides : option Overrides) (c : ClassId) :
  (variables fuel m overrides c).2 = Ok tt →
  ∃ attrs ops,
    attrs ≡ₚ ownedAttribute (deref m c) ∧
    StronglySorted (key_le (λ a, default "" (pname a))) attrs ∧
    (∀ k, List.filter (λ a, String.eqb (default "" (pname a)) k) attrs
          = List.filter (λ a, String.eqb (default "" (pname a)) k)
                        (ownedAttribute (deref m c))) ∧
    ops ≡ₚ ownedOperation (deref m c) ∧
    StronglySorted (key_le (λ o, default "" (oname o))) ops ∧
    (∀ k, List.filter (λ o, String.eqb (default "" (oname o)) k) ops
          = List.filter (λ o, String.eqb (default "" (oname o)) k)
                        (ownedOperation (deref m c))) ∧
    (variables fuel m overrides c).1
    = concat (map (λ a, (variable_of fuel m overrides c a).1) attrs)
      ++ concat (map (λ o, (variable_of_operation m overrides c o).1) ops).
Proof.
  unfold variables. intros H.
  apply bind_ok in H as ([] & Hattrs & Hops & ->).
  destruct (for_each_ok _ _ Hattrs) as [-> _].
  destruct (for_each_ok _ _ Hops) as [-> _].
  eexists _, _.
  split; [apply sorted_perm|]. split; [apply sorted_sorted|].
  split; [intros k; apply sorted_stable|].
  split; [apply sorted_perm|]. split; [apply sorted_sorted|].
  split; [intros k; apply sorted_stable|]. done.
Qed.

Lemma variables_in_name_order_witness :
  ∃ attrs ops,
    attrs ≡ₚ ownedAttribute (deref model_wiring 0) ∧
    StronglySorted (key_le (λ a, default "" (pname a))) attrs ∧
    (∀ k, List.filter (λ a, String.eqb (default "" (pname a)) k) attrs
          = List.filter (λ a, String.eqb (default "" (pname a)) k)
                        (ownedAttribute (deref model_wiring 0))) ∧
    ops ≡ₚ ownedOperation (deref model_wiring 0) ∧
    StronglySorted (key_le (λ o, default "" (oname o))) ops ∧
    (∀ k, List.filter (λ o, String.eqb (default "" (oname o)) k) ops
          = List.filter (λ o, String.eqb (default "" (oname o)) k)
                        (ownedOperation (deref model_wiring 0))) ∧
    (variables 3 model_wiring None 0).1
    = concat (map (λ a, (variable_of 3 model_wiring None 0 a).1) attrs)
      ++ concat (map (λ o, (variable_of_operation model_wiring None 0 o).1)
                     ops).
Proof.
  apply (variables_in_name_order 3 model_wiring None 0). reflexivity.
Defined.
